(** * tb::multi_array: a shallow embedding of [src/multi_array.h]

    The header defines a fixed-size multidimensional array
    [multi_array<T, M, N...>] by template recursion: the primary template
    (rank >= 2) stores [multi_array<T, N...> sub_array_[M]], the
    specialisation [multi_array<T, N>] (rank 1) stores [T sub_array_[N]].

    The embedding follows that structure.  A built-in array [A x[n]] is a
    length-indexed tuple [c_array A n]; a [multi_array<T, M, N...>] is the
    tuple of its [M] slots, whose type [value_type T Ns] is computed by
    recursion on the remaining dimensions.  Code that can stop the program
    ([assert]), leave the defined behaviour of C++ (an out-of-range built-in
    subscript) or be rejected by the compiler ([static_assert], a return
    statement without a conversion) returns an [outcome]. *)

From Stdlib Require Import List Arith Lia Bool NArith.
Import ListNotations.

(** ** Outcomes of running (or compiling) a piece of code *)

Inductive outcome (A : Type) : Type :=
| Ok (x : A)            (* the code returns [x] *)
| AssertionFailed       (* an [assert] evaluated to false: the program aborts *)
| Undefined             (* undefined behaviour: out-of-range built-in subscript *)
| IllFormed.            (* rejected at compile time *)

Arguments Ok {A} x.
Arguments AssertionFailed {A}.
Arguments Undefined {A}.
Arguments IllFormed {A}.

Definition bind {A B : Type} (m : outcome A) (k : A -> outcome B) : outcome B :=
  match m with
  | Ok x => k x
  | AssertionFailed => AssertionFailed
  | Undefined => Undefined
  | IllFormed => IllFormed
  end.

Declare Scope outcome_scope.
Delimit Scope outcome_scope with outcome.
Notation "x <- m ;; k" := (bind m (fun x => k))
  (at level 61, m at next level, right associativity) : outcome_scope.
Open Scope outcome_scope.

(** [assert(c)] with assertions enabled. *)
Definition assert (c : bool) : outcome unit :=
  if c then Ok tt else AssertionFailed.

(** [static_assert(c)]. *)
Definition static_assert (c : bool) : outcome unit :=
  if c then Ok tt else IllFormed.

(** ** Built-in arrays [A x[n]] *)

Fixpoint c_array (A : Type) (n : nat) : Type :=
  match n with
  | 0 => unit
  | S k => (A * c_array A k)%type
  end.

(** The elements of an array, in address order. *)
Fixpoint to_list {A : Type} (n : nat) : c_array A n -> list A :=
  match n with
  | 0 => fun _ => []
  | S k => fun a => fst a :: to_list k (snd a)
  end.

(** An array all of whose elements are [x]. *)
Fixpoint c_array_of {A : Type} (n : nat) (x : A) : c_array A n :=
  match n with
  | 0 => tt
  | S k => (x, c_array_of k x)
  end.

(** Reading [x[i]]: the built-in subscript checks nothing, and an index
    outside [0, n) has undefined behaviour. *)
Fixpoint subscript {A : Type} (n : nat) : c_array A n -> nat -> outcome A :=
  match n with
  | 0 => fun _ _ => Undefined
  | S k => fun a i =>
      match i with
      | 0 => Ok (fst a)
      | S j => subscript k (snd a) j
      end
  end.

(** Writing [x[i] = v]. *)
Fixpoint assign {A : Type} (n : nat) : c_array A n -> nat -> A -> outcome (c_array A n) :=
  match n with
  | 0 => fun _ _ _ => Undefined
  | S k => fun a i v =>
      match i with
      | 0 => Ok (v, snd a)
      | S j => t <- assign k (snd a) j v ;; Ok (fst a, t)
      end
  end.

(** ** The class template *)

(** [value_type]: [T] in the rank-1 specialisation, [multi_array<T, N...>]
    in the primary template.  The member is [value_type sub_array_[M]]. *)
Fixpoint value_type (T : Type) (Ns : list nat) : Type :=
  match Ns with
  | [] => T
  | N :: Ns' => c_array (value_type T Ns') N
  end.

Definition multi_array (T : Type) (M : nat) (Ns : list nat) : Type :=
  c_array (value_type T Ns) M.

(** A full coordinate for [multi_array<T, M, N...>]: one index for [M] and
    one for each of [N...].  The [requires] clause
    [sizeof...(Indices) + 1 == order()] makes any other arity ill-typed. *)
Fixpoint coord (Ns : list nat) : Type :=
  match Ns with
  | [] => nat
  | _ :: Ns' => (nat * coord Ns')%type
  end.

(** A coordinate all of whose indices are valid for the declared dimensions. *)
Fixpoint in_bounds (M : nat) (Ns : list nat) {struct Ns} : coord Ns -> bool :=
  match Ns return coord Ns -> bool with
  | [] => fun i => i <? M
  | N :: Ns' => fun ij => (fst ij <? M) && in_bounds N Ns' (snd ij)
  end.

(** [Nested_initializer<T, M, N...>]: initializer lists nested once per
    dimension.  Only the number of dimensions enters the type, the lengths
    of the lists are run-time values. *)
Fixpoint Nested_initializer (T : Type) (Ns : list nat) : Type :=
  match Ns with
  | [] => list T
  | _ :: Ns' => list (Nested_initializer T Ns')
  end.

(** ** Algorithms of the standard library used by the class

    The ranges are ranges of slots of [sub_array_], given by the index of
    their first slot.  [conv] is the implicit conversion the assignment
    [*it = x] performs when [x] is not of the slot type (a converting
    constructor of the sub-array, which may itself fail). *)

(** [std::fill(first, first + count, value)]. *)
Fixpoint std_fill {A B : Type} (conv : B -> outcome A) (n : nat)
    (a : c_array A n) (first count : nat) (value : B) : outcome (c_array A n) :=
  match count with
  | 0 => Ok a
  | S c =>
      v <- conv value ;;
      a' <- assign n a first v ;;
      std_fill conv n a' (S first) c value
  end.

(** [std::copy(src.begin(), src.end(), d_first)]. *)
Fixpoint std_copy {A B : Type} (conv : B -> outcome A) (n : nat)
    (src : list B) (a : c_array A n) (d_first : nat) : outcome (c_array A n) :=
  match src with
  | [] => Ok a
  | x :: src' =>
      v <- conv x ;;
      a' <- assign n a d_first v ;;
      std_copy conv n src' a' (S d_first)
  end.

(** [std::copy_n(first, count, result)] between two scalar pointers:
    [load p] reads [*p] in the source object, [store o p v] writes [*p = v]
    in the destination object [o]. *)
Fixpoint std_copy_n {O V : Type} (load : nat -> outcome V)
    (store : O -> nat -> V -> outcome O)
    (first count : nat) (result : nat) (o : O) : outcome O :=
  match count with
  | 0 => Ok o
  | S c =>
      v <- load first ;;
      o' <- store o result v ;;
      std_copy_n load store (S first) c (S result) o'
  end.

(** [std::swap_ranges(first1, first1 + count, first2)] between two arrays:
    each step is [std::iter_swap], the unqualified call [swap( *first1,
    *first2)], which [swap_slot] stands for. *)
Fixpoint swap_ranges {A : Type} (swap_slot : A -> A -> outcome (A * A)) (n : nat)
    (a b : c_array A n) (first1 count first2 : nat)
  : outcome (c_array A n * c_array A n) :=
  match count with
  | 0 => Ok (a, b)
  | S c =>
      x <- subscript n a first1 ;;
      y <- subscript n b first2 ;;
      xy <- swap_slot x y ;;
      a' <- assign n a first1 (fst xy) ;;
      b' <- assign n b first2 (snd xy) ;;
      swap_ranges swap_slot n a' b' (S first1) c (S first2)
  end.

(** ** Iterators

    [iterator] is [value_type*], a pointer into [sub_array_], represented by
    the index of the slot it points to ([M] is one past the end).
    [std::reverse_iterator<iterator>] wraps such a pointer [current]; it
    dereferences to [*(current - 1)] and its increment decrements
    [current]. *)

Inductive iterator_type : Type := iterator | reverse_iterator.

Inductive iterator_value : Type :=
| Pointer (p : nat)
| Reverse (current : nat).

Definition type_of (it : iterator_value) : iterator_type :=
  match it with
  | Pointer _ => iterator
  | Reverse _ => reverse_iterator
  end.

Definition iterator_type_eqb (s t : iterator_type) : bool :=
  match s, t with
  | iterator, iterator | reverse_iterator, reverse_iterator => true
  | _, _ => false
  end.

(** [return e;] in a function whose declared return type is [declared]:
    the result is copy-initialised from [e].  A pointer and a
    [std::reverse_iterator] over it do not convert implicitly into each
    other (the class has no conversion function and its constructor from the
    underlying iterator is explicit), so the statement compiles only when
    the two types agree. *)
Definition return_as (declared : iterator_type) (e : iterator_value)
  : outcome iterator_value :=
  if iterator_type_eqb declared (type_of e) then Ok e else IllFormed.

(** [it != last]. *)
Definition iter_neq (it last : iterator_value) : outcome bool :=
  match it, last with
  | Pointer p, Pointer q => Ok (negb (p =? q))
  | Reverse p, Reverse q => Ok (negb (p =? q))
  | _, _ => IllFormed
  end.

(** [*it]. *)
Definition deref {A : Type} (n : nat) (a : c_array A n) (it : iterator_value)
  : outcome A :=
  match it with
  | Pointer p => subscript n a p
  | Reverse 0 => Undefined
  | Reverse (S p) => subscript n a p
  end.

(** [++it]. *)
Definition incr (it : iterator_value) : outcome iterator_value :=
  match it with
  | Pointer p => Ok (Pointer (S p))
  | Reverse 0 => Undefined
  | Reverse (S p) => Ok (Reverse p)
  end.

(** Sequencing an outcome with a computation that may run out of fuel. *)
Definition and_then {A B : Type} (m : outcome A) (k : A -> option (outcome B))
  : option (outcome B) :=
  match m with
  | Ok x => k x
  | AssertionFailed => Some AssertionFailed
  | Undefined => Some Undefined
  | IllFormed => Some IllFormed
  end.

(** The loop [for (; it != last; ++it)] over a range, returning the slots
    [*it] it visits, in order.  [None] means that [fuel] iterations did not reach
    [last]. *)
Fixpoint traverse {A : Type} (fuel : nat) (n : nat) (a : c_array A n)
    (it last : iterator_value) : option (outcome (list A)) :=
  and_then (iter_neq it last) (fun more =>
    if more then
      match fuel with
      | 0 => None
      | S fuel' =>
          and_then (deref n a it) (fun x =>
          and_then (incr it) (fun it' =>
          match traverse fuel' n a it' last with
          | Some (Ok xs) => Some (Ok (x :: xs))
          | r => r
          end))
      end
    else Some (Ok [])).

(** ** Pointers to the storage of an object

    A pointer records the type it points to and the address it holds,
    counted in scalars of type [T] from the start of the object.  Built-in
    arrays are contiguous and [multi_array] has its array as only member, so
    that slot [i] of an array whose slots hold [s] scalars each starts at
    address [i * s]. *)

Inductive pointee_type : Type :=
| element_T                              (* [T] *)
| sub_array (N : nat) (Ns : list nat).   (* [multi_array<T, N, Ns...>] *)

Record pointer : Type := { pointee : pointee_type; address : nat }.

(** The number of scalars stored in a [multi_array<T, M, N...>]
    (or a [T[M][N]...]). *)
Fixpoint elements (M : nat) (Ns : list nat) {struct Ns} : nat :=
  match Ns with
  | [] => M
  | N :: Ns' => M * elements N Ns'
  end.

(** Row-major address of a coordinate. *)
Fixpoint offset (M : nat) (Ns : list nat) {struct Ns} : coord Ns -> nat :=
  match Ns return coord Ns -> nat with
  | [] => fun i => i
  | N :: Ns' => fun ij => fst ij * elements N Ns' + offset N Ns' (snd ij)
  end.

(** ** Built-in array types

    [C_array_size_impl], [array_size] and [multi_array_for] compute on
    types; [ctype] reifies the types they inspect. *)

Inductive ctype : Type :=
| scalar                               (* a type that is not an array *)
| array_of (elem : ctype) (N : nat).   (* [elem[N]] *)

(** [C_array<T, M, N...>], as a type expression ... *)
Fixpoint C_array_impl (M : nat) (Ns : list nat) {struct Ns} : ctype :=
  match Ns with
  | [] => array_of scalar M
  | N :: Ns' => array_of (C_array_impl N Ns') M
  end.

(** ... and as the type of its values. *)
Fixpoint C_array (T : Type) (M : nat) (Ns : list nat) {struct Ns} : Type :=
  match Ns with
  | [] => c_array T M
  | N :: Ns' => c_array (C_array T N Ns') M
  end.

(** [std::size_t] is 64 bits wide; its arithmetic wraps around. *)
Definition size_t_modulus : N := 2 ^ 64.

(** [C_array_size_impl<T>::value]. *)
Fixpoint C_array_size_impl (t : ctype) : N :=
  match t with
  | scalar => 1
  | array_of elem n => (C_array_size_impl elem * N.of_nat n) mod size_t_modulus
  end%N.

(** [array_size(const T&)]: the argument is only used for its type. *)
Definition array_size (t : ctype) : N := C_array_size_impl t.

(** [std::rank_v<T>], [std::extent_v<T, I>]. *)
Fixpoint rank_v (t : ctype) : nat :=
  match t with
  | scalar => 0
  | array_of elem _ => S (rank_v elem)
  end.

Fixpoint extent_v (t : ctype) (I : nat) : nat :=
  match t with
  | scalar => 0
  | array_of elem n =>
      match I with
      | 0 => n
      | S I' => extent_v elem I'
      end
  end.

(** [multi_array_for<T>]: the dimension list
    [std::extent_v<T, I>...] for [I] in [0, std::rank_v<T>).  The element
    type is [std::remove_all_extents_t<T>]; a type of rank 0 would give
    [multi_array<T>] without a dimension, which does not exist. *)
Definition multi_array_for (t : ctype) : option (nat * list nat) :=
  match map (extent_v t) (seq 0 (rank_v t)) with
  | [] => None
  | M :: Ns => Some (M, Ns)
  end.

(** The dimension extents of a type, outermost first, and their product. *)
Fixpoint extents (t : ctype) : list nat :=
  match t with
  | scalar => []
  | array_of elem n => n :: extents elem
  end.

Definition product (l : list nat) : N :=
  fold_right (fun n acc => (N.of_nat n * acc)%N) 1%N l.

(** An object type has a size that [std::size_t] can hold, and so has every
    type nested in it. *)
Fixpoint object_type (t : ctype) : Prop :=
  match t with
  | scalar => True
  | array_of elem n =>
      object_type elem /\ (product (extents (array_of elem n)) < size_t_modulus)%N
  end.

(** ** The members and free functions of [multi_array] *)

Section Container.

(** The element type, the value a default-initialised [T] holds, and
    [T]'s [operator!=]. *)
Variable T : Type.
Variable T_default : T.
Variable ne_T : T -> T -> bool.

(** [size()], [max_size()], [empty()], [order()]: the primary template
    returns [M], [M], [size() == 0] and [sizeof...(N) + 1]; the rank-1
    specialisation returns [N], [size()], [size() == 0] and [1]. *)
Definition size (M : nat) (Ns : list nat) : nat := M.

Definition max_size (M : nat) (Ns : list nat) : nat :=
  match Ns with
  | [] => size M []
  | _ :: _ => M
  end.

Definition empty (M : nat) (Ns : list nat) : bool := size M Ns =? 0.

Definition order (M : nat) (Ns : list nat) : nat :=
  match Ns with
  | [] => 1
  | _ :: _ => length Ns + 1
  end.

(** [multi_array() = default]: every scalar is default-initialised. *)
Fixpoint default_value (Ns : list nat) : value_type T Ns :=
  match Ns with
  | [] => T_default
  | N :: Ns' => c_array_of N (default_value Ns')
  end.

Definition default_init (M : nat) (Ns : list nat) : multi_array T M Ns :=
  c_array_of M (default_value Ns).

(** [operator[]]: [return sub_array_[i];] *)
Definition op_index (M : nat) (Ns : list nat) (a : multi_array T M Ns) (i : nat)
  : outcome (value_type T Ns) :=
  subscript M a i.

(** [operator()]: rank 1 is [return sub_array_[i];], the primary template
    is [return sub_array_[i](j...);]. *)
Fixpoint op_call (M : nat) (Ns : list nat) {struct Ns}
  : multi_array T M Ns -> coord Ns -> outcome T :=
  match Ns return multi_array T M Ns -> coord Ns -> outcome T with
  | [] => fun a i => subscript M a i
  | N :: Ns' => fun a ij =>
      s <- subscript M a (fst ij) ;;
      op_call N Ns' s (snd ij)
  end.

(** [at]: rank 1 is [assert(i < N); return sub_array_[i];], the primary
    template is [assert(i < M); return sub_array_[i](j...);]: after its
    own assertion it calls [operator()] of the sub-array, not [at]. *)
Definition at_ (M : nat) (Ns : list nat)
  : multi_array T M Ns -> coord Ns -> outcome T :=
  match Ns return multi_array T M Ns -> coord Ns -> outcome T with
  | [] => fun a i =>
      _ <- assert (i <? M) ;;
      subscript M a i
  | N :: Ns' => fun a ij =>
      _ <- assert (fst ij <? M) ;;
      s <- subscript M a (fst ij) ;;
      op_call N Ns' s (snd ij)
  end.

(** [begin()], [end()]: [return iterator(sub_array_);] and
    [return iterator(sub_array_ + M);], declared to return [iterator]. *)
Definition begin_ (M : nat) (Ns : list nat) : outcome iterator_value :=
  return_as iterator (Pointer 0).

Definition end_ (M : nat) (Ns : list nat) : outcome iterator_value :=
  return_as iterator (Pointer M).

(** [rbegin()], [rend()]: [return reverse_iterator(end());] and
    [return reverse_iterator(begin());], both declared to return
    [iterator] (the [const] overloads and [crbegin], [crend]: the same with
    [const_iterator] and [const_reverse_iterator]). *)
Definition rbegin (M : nat) (Ns : list nat) : outcome iterator_value :=
  e <- end_ M Ns ;;
  match e with
  | Pointer p => return_as iterator (Reverse p)
  | Reverse _ => IllFormed
  end.

Definition rend (M : nat) (Ns : list nat) : outcome iterator_value :=
  b <- begin_ M Ns ;;
  match b with
  | Pointer p => return_as iterator (Reverse p)
  | Reverse _ => IllFormed
  end.

(** Iterating over a range of the container: both ends are obtained, then
    the loop runs. *)
Definition iterate (M : nat) (Ns : list nat)
    (first last : nat -> list nat -> outcome iterator_value)
    (fuel : nat) (a : multi_array T M Ns)
  : option (outcome (list (value_type T Ns))) :=
  and_then (first M Ns) (fun it =>
  and_then (last M Ns) (fun l =>
  traverse fuel M a it l)).

(** [data()]: rank 1 is [return sub_array_;], a [T*] to the first scalar;
    the primary template is [return sub_array_->data();], whatever
    [data()] of its first slot returns, and that slot starts where the
    array starts. *)
Fixpoint data (M : nat) (Ns : list nat) {struct Ns} : pointer :=
  match Ns with
  | [] => {| pointee := element_T; address := 0 |}
  | N :: Ns' =>
      let p := data N Ns' in
      {| pointee := pointee p; address := 0 * elements N Ns' + address p |}
  end.

(** [fill(value)]: [std::fill(begin(), end(), value);].  At rank 1 the
    slots are of type [T]; in the primary template they are sub-arrays and
    each assignment converts [value] with the constructor
    [multi_array(const T&)] of the sub-array, which default-initialises a
    temporary and fills it in the same way. *)
Fixpoint fill (M : nat) (Ns : list nat) {struct Ns}
  : multi_array T M Ns -> T -> outcome (multi_array T M Ns) :=
  match Ns return multi_array T M Ns -> T -> outcome (multi_array T M Ns) with
  | [] => fun a value => std_fill Ok M a 0 M value
  | N :: Ns' => fun a value =>
      std_fill (fill N Ns' (default_init N Ns')) M a 0 M value
  end.

(** [multi_array(const T& value)]: [std::fill(begin(), end(), value);] on
    the default-initialised members. *)
Definition from_value (M : nat) (Ns : list nat) (value : T)
  : outcome (multi_array T M Ns) :=
  fill M Ns (default_init M Ns) value.

(** [multi_array(const Nested_initializer<T, M, N...>&)]:
    [assert(init_list.size() == M);
     std::copy(init_list.begin(), init_list.end(), sub_array_);]
    The elements of a nested list are lists; assigning one to a slot
    converts it with this same constructor of the sub-array. *)
Fixpoint from_initializer (M : nat) (Ns : list nat) {struct Ns}
  : Nested_initializer T Ns -> outcome (multi_array T M Ns) :=
  match Ns return Nested_initializer T Ns -> outcome (multi_array T M Ns) with
  | [] => fun init_list =>
      _ <- assert (length init_list =? M) ;;
      std_copy Ok M init_list (default_init M []) 0
  | N :: Ns' => fun init_list =>
      _ <- assert (length init_list =? M) ;;
      std_copy (from_initializer N Ns') M init_list (default_init M (N :: Ns')) 0
  end.

(** [operator==]:
    [for (i = 0; i < M; ++i) if (lhs[i] != rhs[i]) return false;
     return true;]
    [todo] counts the iterations left, [M - i]. [ne] is [!=] on slots. *)
Fixpoint eq_loop {A : Type} (ne : A -> A -> outcome bool) (M : nat)
    (lhs rhs : c_array A M) (todo i : nat) : outcome bool :=
  match todo with
  | 0 => Ok true
  | S todo' =>
      x <- subscript M lhs i ;;
      y <- subscript M rhs i ;;
      differ <- ne x y ;;
      if differ then Ok false else eq_loop ne M lhs rhs todo' (S i)
  end.

(** On the slots of a rank-1 array [!=] is that of [T]; on sub-arrays it
    is [operator!=] of [multi_array], [!(lhs == rhs)]. *)
Fixpoint op_eq (M : nat) (Ns : list nat) {struct Ns}
  : multi_array T M Ns -> multi_array T M Ns -> outcome bool :=
  match Ns return multi_array T M Ns -> multi_array T M Ns -> outcome bool with
  | [] => fun lhs rhs =>
      eq_loop (fun x y => Ok (ne_T x y)) M lhs rhs M 0
  | N :: Ns' => fun lhs rhs =>
      eq_loop (fun x y => e <- op_eq N Ns' x y ;; Ok (negb e)) M lhs rhs M 0
  end.

Definition op_ne (M : nat) (Ns : list nat) (lhs rhs : multi_array T M Ns)
  : outcome bool :=
  e <- op_eq M Ns lhs rhs ;; Ok (negb e).

(** [get<I, J...>(a)] with one index per dimension:
    [static_assert(I < N); return get<J...>(a[I]);] and, for the last
    index, [static_assert(I < N); return a[I];]. *)
Fixpoint get (M : nat) (Ns : list nat) {struct Ns}
  : coord Ns -> multi_array T M Ns -> outcome T :=
  match Ns return coord Ns -> multi_array T M Ns -> outcome T with
  | [] => fun I a =>
      _ <- static_assert (I <? M) ;;
      op_index M [] a I
  | N :: Ns' => fun IJ a =>
      _ <- static_assert (fst IJ <? M) ;;
      s <- op_index M (N :: Ns') a (fst IJ) ;;
      get N Ns' (snd IJ) s
  end.

(** Reading a built-in array at a full coordinate, [a[i][j]...]. *)
Fixpoint C_array_at (M : nat) (Ns : list nat) {struct Ns}
  : C_array T M Ns -> coord Ns -> outcome T :=
  match Ns return C_array T M Ns -> coord Ns -> outcome T with
  | [] => fun a i => subscript M a i
  | N :: Ns' => fun a ij =>
      s <- subscript M a (fst ij) ;;
      C_array_at N Ns' s (snd ij)
  end.

(** [*((R* )a + p)]: the scalar at address [p] of a built-in array. *)
Fixpoint load (M : nat) (Ns : list nat) {struct Ns}
  : C_array T M Ns -> nat -> outcome T :=
  match Ns return C_array T M Ns -> nat -> outcome T with
  | [] => fun a p => subscript M a p
  | N :: Ns' => fun a p =>
      let s := elements N Ns' in
      sub <- subscript M a (p / s) ;;
      load N Ns' sub (p mod s)
  end.

(** [*p = v] for a scalar pointer [p] into a [multi_array]. *)
Fixpoint store (M : nat) (Ns : list nat) {struct Ns}
  : multi_array T M Ns -> nat -> T -> outcome (multi_array T M Ns) :=
  match Ns return multi_array T M Ns -> nat -> T -> outcome (multi_array T M Ns) with
  | [] => fun a p v => assign M a p v
  | N :: Ns' => fun a p v =>
      let s := elements N Ns' in
      sub <- subscript M a (p / s) ;;
      sub' <- store N Ns' sub (p mod s) v ;;
      assign M a (p / s) sub'
  end.

(** [to_multi_array(a)] for [a] of type [C_array<R, M, N...>]:
    [multi_array_for<T> result;
     std::copy_n((R* )a, array_size(a), result.data());
     return result;]
    The copy reads and writes scalars: [result.data()] is used as a
    pointer to the first scalar of [result]. *)
Definition to_multi_array (M : nat) (Ns : list nat) (a : C_array T M Ns)
  : outcome (multi_array T M Ns) :=
  let result := default_init M Ns in
  std_copy_n (load M Ns a) (store M Ns)
             0 (N.to_nat (array_size (C_array_impl M Ns)))
             (address (data M Ns)) result.

(** [front()]: [return sub_array_[0];] *)
Definition front (M : nat) (Ns : list nat) (a : multi_array T M Ns)
  : outcome (value_type T Ns) :=
  subscript M a 0.

(** [back()]: [return sub_array_[M-1];].  [M - 1] is computed in
    [std::size_t]: for [M = 0] it wraps around to the largest value, which
    is out of range of the array. *)
Definition back (M : nat) (Ns : list nat) (a : multi_array T M Ns)
  : outcome (value_type T Ns) :=
  match M with
  | 0 => Undefined
  | S _ => subscript M a (M - 1)
  end.

(** [swap(a)]: [std::swap_ranges(begin(), end(), a.begin());], returning
    the two arrays afterwards.  On scalars [swap] is [std::swap], which
    exchanges the two values; on sub-arrays it is the free function
    [tb::swap(lhs, rhs)], [lhs.swap(rhs);]. *)
Fixpoint swap (M : nat) (Ns : list nat) {struct Ns}
  : multi_array T M Ns -> multi_array T M Ns ->
    outcome (multi_array T M Ns * multi_array T M Ns) :=
  match Ns return multi_array T M Ns -> multi_array T M Ns ->
                  outcome (multi_array T M Ns * multi_array T M Ns) with
  | [] => fun this a =>
      swap_ranges (fun x y => Ok (y, x)) M this a 0 M 0
  | N :: Ns' => fun this a =>
      swap_ranges (swap N Ns') M this a 0 M 0
  end.

End Container.

(** ** Concrete arrays used below *)

(** [multi_array<int, 2, 3>{{1,2,3},{4,5,6}}] *)
Definition a23 : multi_array nat 2 [3] :=
  ((1, (2, (3, tt))), ((4, (5, (6, tt))), tt)).

(** [int[2][2] = {{1,2},{3,4}}] *)
Definition c22 : C_array nat 2 [2] :=
  ((1, (2, tt)), ((3, (4, tt)), tt)).

(** [multi_array<T, 2>{x, y}] for a class [T] that wraps an [int], here
    with [x = 1] and [y = 2] ... *)
Definition a2 : multi_array nat 2 [] := (1, (2, tt)).

(** ... whose [operator==] and [operator!=] both return [true] for any two
    values: an element type whose [!=] is not the negation of its [==]. *)
Definition always_true (x y : nat) : bool := true.

(** ** Vocabulary of the statements *)

(** [at] as the specification reads it, asserting the index of every
    level: what the primary template would do if it called [at] of the
    sub-array.  It is not the code; the code is [at_]. *)
Fixpoint at_every_level (T : Type) (M : nat) (Ns : list nat) {struct Ns}
  : multi_array T M Ns -> coord Ns -> outcome T :=
  match Ns return multi_array T M Ns -> coord Ns -> outcome T with
  | [] => fun a i =>
      _ <- assert (i <? M) ;;
      subscript M a i
  | N :: Ns' => fun a ij =>
      _ <- assert (fst ij <? M) ;;
      s <- subscript M a (fst ij) ;;
      at_every_level T N Ns' s (snd ij)
  end.

(** A nested literal has the declared length at every nesting level. *)
Fixpoint matches_dimensions (T : Type) (M : nat) (Ns : list nat) {struct Ns}
  : Nested_initializer T Ns -> bool :=
  match Ns return Nested_initializer T Ns -> bool with
  | [] => fun l => length l =? M
  | N :: Ns' => fun l => (length l =? M) && forallb (matches_dimensions T N Ns') l
  end.

(** The element of a nested literal at a nested position. *)
Fixpoint initializer_at (T : Type) (Ns : list nat) {struct Ns}
  : Nested_initializer T Ns -> coord Ns -> option T :=
  match Ns return Nested_initializer T Ns -> coord Ns -> option T with
  | [] => fun l i => nth_error l i
  | _ :: Ns' => fun l ij =>
      match nth_error l (fst ij) with
      | Some l' => initializer_at T Ns' l' (snd ij)
      | None => None
      end
  end.

(** Equality of two slots: [==] of [T] at rank 1, [operator==] of the
    sub-arrays above. *)
Definition slot_eq (T : Type) (eq_T ne_T : T -> T -> bool) (Ns : list nat)
  : value_type T Ns -> value_type T Ns -> outcome bool :=
  match Ns return value_type T Ns -> value_type T Ns -> outcome bool with
  | [] => fun x y => Ok (eq_T x y)
  | N :: Ns' => op_eq T ne_T N Ns'
  end.

(** The first index of a coordinate. *)
Definition first_index (Ns : list nat) : coord Ns -> nat :=
  match Ns return coord Ns -> nat with
  | [] => fun i => i
  | _ :: _ => fun ij => fst ij
  end.

(** The nested literal that lists the elements of an array. *)
Fixpoint to_initializer (T : Type) (Ns : list nat) {struct Ns}
  : forall M : nat, multi_array T M Ns -> Nested_initializer T Ns :=
  match Ns return forall M : nat, multi_array T M Ns -> Nested_initializer T Ns with
  | [] => fun M a => to_list M a
  | N :: Ns' => fun M a => map (to_initializer T Ns' N) (to_list M a)
  end.

(** The nested literal of the declared lengths all of whose elements are
    [v]. *)
Fixpoint initializer_of_value (T : Type) (M : nat) (Ns : list nat) (v : T) {struct Ns}
  : Nested_initializer T Ns :=
  match Ns return Nested_initializer T Ns with
  | [] => repeat v M
  | N :: Ns' => repeat (initializer_of_value T N Ns' v) M
  end.

(** * Properties *)

(** Turns boolean comparisons among the hypotheses into propositions. *)
Ltac reflect_comparisons :=
  repeat match goal with
         | H : (_ <=? _) = true |- _ => apply Nat.leb_le in H
         | H : (_ <=? _) = false |- _ => apply Nat.leb_gt in H
         | H : (_ <? _) = true |- _ => apply Nat.ltb_lt in H
         | H : (_ <? _) = false |- _ => apply Nat.ltb_ge in H
         end.

(** ** Built-in arrays *)

Section CArrayFacts.

Context {A : Type}.

Lemma to_list_length (n : nat) (a : c_array A n) : length (to_list n a) = n.
Proof.
  induction n as [|n IH]; simpl; [reflexivity|].
  now rewrite IH.
Qed.

Lemma subscript_nth_error (n : nat) (a : c_array A n) (i : nat) :
  subscript n a i =
  match nth_error (to_list n a) i with
  | Some x => Ok x
  | None => Undefined
  end.
Proof.
  revert i; induction n as [|n IH]; intros [|i]; simpl; try reflexivity.
  apply IH.
Qed.

Lemma subscript_in_range (n : nat) (a : c_array A n) (i : nat) :
  i < n -> exists x, subscript n a i = Ok x.
Proof.
  revert i; induction n as [|n IH]; intros i Hi; [lia|].
  destruct i as [|i]; simpl; [eauto|].
  apply IH; lia.
Qed.

Lemma subscript_out_of_range (n : nat) (a : c_array A n) (i : nat) :
  n <= i -> subscript n a i = Undefined.
Proof.
  revert i; induction n as [|n IH]; intros i Hi; [reflexivity|].
  destruct i as [|i]; simpl; [lia|].
  apply IH; lia.
Qed.

Lemma subscript_c_array_of (n : nat) (x : A) (i : nat) :
  i < n -> subscript n (c_array_of n x) i = Ok x.
Proof.
  revert i; induction n as [|n IH]; intros i Hi; [lia|].
  destruct i as [|i]; simpl; [reflexivity|].
  apply IH; lia.
Qed.

Lemma assign_in_range (n : nat) (a : c_array A n) (i : nat) (v : A) :
  i < n -> exists a', assign n a i v = Ok a'.
Proof.
  revert i; induction n as [|n IH]; intros i Hi; [lia|].
  destruct i as [|i]; simpl; [eauto|].
  destruct (IH (snd a) i) as [t Ht]; [lia|].
  rewrite Ht; simpl; eauto.
Qed.

Lemma subscript_assign (n : nat) (a a' : c_array A n) (i j : nat) (v : A) :
  assign n a i v = Ok a' ->
  subscript n a' j = if j =? i then Ok v else subscript n a j.
Proof.
  revert a a' i j; induction n as [|n IH]; intros a a' i j H; [discriminate|].
  destruct i as [|i]; simpl in H.
  - injection H as <-. now destruct j.
  - destruct (assign n (snd a) i v) as [t| | |] eqn:Ht; try discriminate.
    injection H as <-.
    destruct j as [|j]; simpl; [reflexivity|].
    now apply IH.
Qed.

Lemma subscript_assign_same (n : nat) (a a' : c_array A n) (i : nat) (v : A) :
  assign n a i v = Ok a' -> subscript n a' i = Ok v.
Proof.
  intros H. rewrite (subscript_assign _ _ _ _ i _ H). now rewrite Nat.eqb_refl.
Qed.

Lemma subscript_assign_other (n : nat) (a a' : c_array A n) (i j : nat) (v : A) :
  assign n a i v = Ok a' -> j <> i -> subscript n a' j = subscript n a j.
Proof.
  intros H Hj. rewrite (subscript_assign _ _ _ _ j _ H).
  now apply Nat.eqb_neq in Hj as ->.
Qed.

End CArrayFacts.

(** ** [std::fill] and [std::copy] over slots *)

Section AlgorithmFacts.

Context {A B : Type}.
Variable conv : B -> outcome A.

(** Filling [count] slots from [first] succeeds when the range lies in the
    array and the conversion of the value succeeds; the slots of the
    range then hold the converted value and the others are unchanged. *)
Lemma std_fill_spec (n : nat) (value : B) (v : A) :
  conv value = Ok v ->
  forall (count first : nat) (a : c_array A n),
    first + count <= n ->
    exists a', std_fill conv n a first count value = Ok a' /\
      forall j,
        subscript n a' j =
        if (first <=? j) && (j <? first + count) then Ok v else subscript n a j.
Proof.
  intros Hconv. induction count as [|count IH]; intros first a Hle; simpl.
  - exists a; split; [reflexivity|]. intros j.
    destruct (first <=? j) eqn:E1, (j <? first + 0) eqn:E2; simpl; try reflexivity.
    apply Nat.leb_le in E1. apply Nat.ltb_lt in E2. lia.
  - rewrite Hconv; simpl.
    destruct (assign_in_range n a first v) as [a1 Ha1]; [lia|].
    rewrite Ha1; simpl.
    destruct (IH (S first) a1) as [a' [Hfill Hsub]]; [lia|].
    exists a'; split; [exact Hfill|]. intros j.
    rewrite Hsub, (subscript_assign _ _ _ _ j _ Ha1).
    destruct (Nat.eq_dec j first) as [->|Hne].
    + rewrite Nat.eqb_refl.
      replace (S first <=? first) with false by (symmetry; apply Nat.leb_gt; lia).
      replace (first <=? first) with true by (symmetry; apply Nat.leb_le; lia).
      replace (first <? first + S count) with true by (symmetry; apply Nat.ltb_lt; lia).
      reflexivity.
    + apply Nat.eqb_neq in Hne as Hb; rewrite Hb.
      destruct (S first <=? j) eqn:E1, (j <? S first + count) eqn:E2,
               (first <=? j) eqn:E3, (j <? first + S count) eqn:E4;
        simpl; try reflexivity;
        reflect_comparisons; lia.
Qed.

(** Copying a list whose elements all convert, into a range that lies in
    the array. *)
Lemma std_copy_spec (n : nat) :
  forall (src : list B) (vs : list A) (d_first : nat) (a : c_array A n),
    Forall2 (fun x v => conv x = Ok v) src vs ->
    d_first + length src <= n ->
    exists a', std_copy conv n src a d_first = Ok a' /\
      forall j,
        subscript n a' j =
        if (d_first <=? j) && (j <? d_first + length src)
        then match nth_error vs (j - d_first) with
             | Some v => Ok v
             | None => Undefined
             end
        else subscript n a j.
Proof.
  induction src as [|x src IH]; intros vs d_first a Hconv Hle.
  - exists a; split; [reflexivity|]. intros j.
    destruct (d_first <=? j) eqn:E1, (j <? d_first + length (@nil B)) eqn:E2;
      simpl; try reflexivity.
    apply Nat.leb_le in E1. apply Nat.ltb_lt in E2. simpl in E2. lia.
  - inversion Hconv as [|x' v src' vs' Hx Hrest]; subst. simpl in Hle |- *.
    rewrite Hx; simpl.
    destruct (assign_in_range n a d_first v) as [a1 Ha1]; [lia|].
    rewrite Ha1; simpl.
    destruct (IH vs' (S d_first) a1 Hrest) as [a' [Hcopy Hsub]]; [lia|].
    exists a'; split; [exact Hcopy|]. intros j.
    rewrite Hsub, (subscript_assign _ _ _ _ j _ Ha1).
    destruct (Nat.eq_dec j d_first) as [->|Hne].
    + rewrite Nat.eqb_refl, Nat.sub_diag.
      replace (S d_first <=? d_first) with false by (symmetry; apply Nat.leb_gt; lia).
      replace (d_first <=? d_first) with true by (symmetry; apply Nat.leb_le; lia).
      replace (d_first <? d_first + S (length src)) with true
        by (symmetry; apply Nat.ltb_lt; lia).
      reflexivity.
    + apply Nat.eqb_neq in Hne as Hb; rewrite Hb.
      destruct (S d_first <=? j) eqn:E1, (j <? S d_first + length src) eqn:E2,
               (d_first <=? j) eqn:E3, (j <? d_first + S (length src)) eqn:E4;
        simpl; try reflexivity;
        reflect_comparisons; try lia.
      replace (j - d_first) with (S (j - S d_first)) by lia. reflexivity.
Qed.

(** The copy stops at the first element whose conversion fails an
    assertion. *)
Lemma std_copy_assertion (n : nat) :
  forall (src : list B) (d_first : nat) (a : c_array A n),
    Forall (fun x => (exists v, conv x = Ok v) \/ conv x = AssertionFailed) src ->
    Exists (fun x => conv x = AssertionFailed) src ->
    d_first + length src <= n ->
    std_copy conv n src a d_first = AssertionFailed.
Proof.
  induction src as [|x src IH]; intros d_first a Hall Hex Hle.
  - inversion Hex.
  - inversion Hall as [|x' src' Hx Hrest]; subst. simpl in Hle |- *.
    destruct Hx as [[v Hv]|Hx]; [|now rewrite Hx].
    rewrite Hv; simpl.
    destruct (assign_in_range n a d_first v) as [a1 Ha1]; [lia|].
    rewrite Ha1; simpl.
    apply IH; [exact Hrest| |lia].
    inversion Hex as [x' src' Hbad|x' src' Hlater]; subst; [congruence|exact Hlater].
Qed.

End AlgorithmFacts.

(** ** Access *)

(** Resolves the subscript [a[i]] the goal is stuck on, given [H : i < n]:
    names the slot it reads. *)
Ltac read_slot H s Hs :=
  match goal with
  | |- context [@subscript ?A ?n ?a ?i] =>
      destruct (@subscript_in_range A n a i H) as [s Hs];
      rewrite Hs; cbn [bind]
  end.

(** Rewrites with [H : subscript n a i = r] where the goal reads the same
    slot. *)
Ltac rewrite_slot H :=
  match type of H with
  | @subscript ?A ?n ?a ?i = _ =>
      match goal with
      | |- context [@subscript ?A' n a ?i'] =>
          change (@subscript A' n a i') with (@subscript A n a i);
          rewrite H; cbn [bind]
      end
  end.

Section AccessFacts.

Variable T : Type.

Lemma in_bounds_cons (M N : nat) (Ns : list nat) (ij : coord (N :: Ns)) :
  in_bounds M (N :: Ns) ij = true <->
  fst ij < M /\ in_bounds N Ns (snd ij) = true.
Proof.
  simpl. rewrite andb_true_iff, Nat.ltb_lt. reflexivity.
Qed.

(** [a(i, j...)] is [a[i](j...)]. *)
Lemma op_call_cons (M N : nat) (Ns : list nat) (a : multi_array T M (N :: Ns))
    (idx : coord (N :: Ns)) (s : multi_array T N Ns) :
  subscript M a (fst idx) = Ok s ->
  op_call T M (N :: Ns) a idx = op_call T N Ns s (snd idx).
Proof.
  intros H. cbn [op_call]. now rewrite_slot H.
Qed.

(** Full-coordinate access is defined at every coordinate within the
    dimensions. *)
Lemma op_call_in_bounds (Ns : list nat) :
  forall (M : nat) (a : multi_array T M Ns) (idx : coord Ns),
    in_bounds M Ns idx = true -> exists x, op_call T M Ns a idx = Ok x.
Proof.
  induction Ns as [|N Ns IH]; intros M a idx Hin.
  - apply subscript_in_range. now apply Nat.ltb_lt.
  - apply in_bounds_cons in Hin as [Hi Hj]. cbn [op_call].
    read_slot Hi s Hs. now apply IH.
Qed.

(** [at] asserts its first index, at every rank. *)
Lemma at_first_index_asserted (M : nat) (Ns : list nat)
    (a : multi_array T M Ns) (idx : coord Ns) :
  M <= match Ns return coord Ns -> nat with
       | [] => fun i => i
       | _ :: _ => fun ij => fst ij
       end idx ->
  at_ T M Ns a idx = AssertionFailed.
Proof.
  destruct Ns as [|N Ns]; simpl; intros H;
    apply Nat.ltb_ge in H; now rewrite H.
Qed.

(** Past its own assertion, [at] of the primary template is [operator()]:
    nothing more is asserted. *)
Lemma at_delegates_to_op_call (M N : nat) (Ns : list nat)
    (a : multi_array T M (N :: Ns)) (ij : coord (N :: Ns)) :
  fst ij < M -> at_ T M (N :: Ns) a ij = op_call T M (N :: Ns) a ij.
Proof.
  intros H. simpl. apply Nat.ltb_lt in H. now rewrite H.
Qed.

(** At rank 2, a valid first index with a second index out of range runs
    into an out-of-range subscript without any assertion failing. *)
Lemma at_rank2_second_index_unchecked (M N : nat)
    (a : multi_array T M [N]) (i j : nat) :
  i < M -> N <= j -> at_ T M [N] a (i, j) = Undefined.
Proof.
  intros Hi Hj. rewrite at_delegates_to_op_call by exact Hi. cbn [op_call fst snd].
  read_slot Hi s Hs. now apply subscript_out_of_range.
Qed.

(** C9: for a coordinate that is valid at every level, [get<I...>(a)]
    compiles and returns the element that [a(I...)] returns. *)
Theorem C9_get_agrees_with_op_call (Ns : list nat) :
  forall (M : nat) (a : multi_array T M Ns) (idx : coord Ns),
    in_bounds M Ns idx = true ->
    exists x, get T M Ns idx a = Ok x /\ op_call T M Ns a idx = Ok x.
Proof.
  induction Ns as [|N Ns IH]; intros M a idx Hin.
  - simpl in *. rewrite Hin. simpl. unfold op_index.
    apply Nat.ltb_lt in Hin.
    destruct (subscript_in_range M a idx Hin) as [x Hx]. eauto.
  - apply in_bounds_cons in Hin as [Hi Hj].
    cbn [get op_call]. unfold op_index.
    apply Nat.ltb_lt in Hi as Hb. rewrite Hb. cbn [static_assert bind].
    read_slot Hi s Hs. now apply IH.
Qed.

(** A coordinate that is out of range at some level does not compile. *)
Lemma get_out_of_bounds (Ns : list nat) :
  forall (M : nat) (a : multi_array T M Ns) (idx : coord Ns),
    in_bounds M Ns idx = false -> get T M Ns idx a = IllFormed.
Proof.
  induction Ns as [|N Ns IH]; intros M a idx Hout.
  - simpl in *. now rewrite Hout.
  - cbn [get in_bounds] in *. unfold op_index.
    destruct (fst idx <? M) eqn:Hb; [|reflexivity].
    cbn [static_assert bind]. simpl in Hout.
    apply Nat.ltb_lt in Hb.
    read_slot Hb s Hs. now apply IH.
Qed.

End AccessFacts.

(** C1: the claim says that [a.at(i1,...,iR)] checks every index, so that
    a valid first index with a deeper index out of range still fails an
    assertion.  On the 2x3 array [{{1,2,3},{4,5,6}}], [a.at(0, 5)] passes
    the only assertion made ([0 < 2]) and then subscripts the first row
    out of range: the outcome is undefined behaviour, not a failed
    assertion, whereas asserting at every level would have stopped. *)
Theorem C1_at_deeper_index_not_asserted :
  at_ nat 2 [3] a23 (0, 5) = Undefined /\
  at_ nat 2 [3] a23 (0, 5) <> AssertionFailed /\
  at_every_level nat 2 [3] a23 (0, 5) = AssertionFailed.
Proof.
  split; [reflexivity|]. split; [discriminate|reflexivity].
Qed.

Lemma C9_get_agrees_with_op_call_witness :
  in_bounds 2 [3] (1, 2) = true /\
  exists x, get nat 2 [3] (1, 2) a23 = Ok x /\ op_call nat 2 [3] a23 (1, 2) = Ok x.
Proof.
  split; [reflexivity|].
  apply (C9_get_agrees_with_op_call nat [3] 2 a23 (1, 2)). reflexivity.
Defined.

(** ** Shape queries and [data()] *)

(** C4: [size()] and [max_size()] are the outermost dimension, [empty()]
    tells whether it is zero, [order()] is the number of dimensions; a 2x3
    array has size 2 although it stores 6 elements. *)
Theorem C4_size_max_size_empty_order (M : nat) (Ns : list nat) :
  size M Ns = M /\
  max_size M Ns = M /\
  (empty M Ns = true <-> M = 0) /\
  order M Ns = length (M :: Ns) /\
  size 2 [3] = 2 /\ elements 2 [3] = 6.
Proof.
  repeat split.
  - now destruct Ns.
  - unfold empty, size. now intros H%Nat.eqb_eq.
  - intros ->. reflexivity.
  - destruct Ns; simpl; [reflexivity|]. now rewrite Nat.add_1_r.
Qed.

(** C2, as stated, fails: for a 2x3 array [data()] does not point to a
    sub-array [multi_array<T, 3>]. *)
Lemma C2_data_rank2_counterexample :
  ~ (pointee (data 2 [3]) = sub_array 3 []).
Proof.
  simpl. discriminate.
Qed.

Lemma data_spec (Ns : list nat) :
  forall M : nat, data M Ns = {| pointee := element_T; address := 0 |}.
Proof.
  induction Ns as [|N Ns IH]; intros M; simpl; [reflexivity|].
  now rewrite IH.
Qed.

(** C2, amended: at every rank [data()] is a pointer to [T] that holds the
    address of the first scalar of the array. *)
Theorem C2_data_points_to_first_scalar (M : nat) (Ns : list nat) :
  pointee (data M Ns) = element_T /\ address (data M Ns) = 0.
Proof.
  now rewrite data_spec.
Qed.

(** ** Broadcast construction and [fill] *)

Lemma Forall2_nth_error_r {A B : Type} {P : A -> B -> Prop} {l : list A} {vs : list B} :
  Forall2 P l vs ->
  forall i v, nth_error vs i = Some v -> exists x, nth_error l i = Some x /\ P x v.
Proof.
  induction 1 as [|x v l vs Hxv _ IH]; intros [|i] w Hw; simpl in *; try discriminate.
  - injection Hw as <-. eauto.
  - now apply IH.
Qed.

Lemma Forall_exists_Forall2 {A B : Type} (P : A -> B -> Prop) (l : list A) :
  Forall (fun x => exists v, P x v) l -> exists vs, Forall2 P l vs.
Proof.
  induction 1 as [|x l [v Hv] _ [vs Hvs]]; [exists []; constructor|].
  exists (v :: vs). now constructor.
Qed.

Section ConstructionFacts.

Variable T : Type.
Variable T_default : T.

(** [fill] succeeds on any array, and afterwards every coordinate reads
    the value. *)
Lemma fill_spec (Ns : list nat) :
  forall (M : nat) (a : multi_array T M Ns) (v : T),
    exists a', fill T T_default M Ns a v = Ok a' /\
      forall idx, in_bounds M Ns idx = true -> op_call T M Ns a' idx = Ok v.
Proof.
  induction Ns as [|N Ns IH]; intros M a v.
  - destruct (std_fill_spec Ok M v v eq_refl M 0 a) as [a' [Hfill Hsub]]; [lia|].
    exists a'; split; [exact Hfill|]. intros idx Hin.
    simpl in Hin |- *. rewrite Hsub.
    replace (idx <? 0 + M) with true by (symmetry; exact Hin). reflexivity.
  - destruct (IH N (default_init T T_default N Ns) v) as [tmp [Htmp Hread]].
    destruct (std_fill_spec (fill T T_default N Ns (default_init T T_default N Ns))
                            M v tmp Htmp M 0 a) as [a' [Hfill Hsub]]; [lia|].
    exists a'; split; [exact Hfill|]. intros idx Hin.
    apply in_bounds_cons in Hin as [Hi Hj].
    cbn [op_call].
    match goal with
    | |- context [subscript M a' ?i] =>
        change (subscript M a' i) with (subscript M a' (fst idx))
    end.
    rewrite (Hsub (fst idx)).
    replace (fst idx <? 0 + M) with true by (symmetry; apply Nat.ltb_lt; lia).
    cbn [Nat.leb andb bind]. now apply Hread.
Qed.

(** C8: broadcast construction from [v] yields an array that reads [v] at
    every coordinate, and [fill(v)] turns any array into such an array. *)
Theorem C8_broadcast_and_fill (M : nat) (Ns : list nat)
    (a : multi_array T M Ns) (v : T) (idx : coord Ns) :
  in_bounds M Ns idx = true ->
  (exists c, from_value T T_default M Ns v = Ok c /\
             op_call T M Ns c idx = Ok v) /\
  (exists a', fill T T_default M Ns a v = Ok a' /\
              op_call T M Ns a' idx = Ok v).
Proof.
  intros Hin. split.
  - destruct (fill_spec Ns M (default_init T T_default M Ns) v) as [c [Hc Hread]].
    exists c. split; [exact Hc|]. now apply Hread.
  - destruct (fill_spec Ns M a v) as [a' [Ha' Hread]].
    exists a'. split; [exact Ha'|]. now apply Hread.
Qed.

(** C6: construction from a nested literal asserts, at each nesting level,
    that the list has the declared length.  When some length differs the
    construction fails an assertion; when all agree it succeeds, and the
    element at each coordinate is the element of the literal at that
    nested position. *)
Theorem C6_from_initializer_checked (Ns : list nat) :
  forall (M : nat) (init : Nested_initializer T Ns),
    (matches_dimensions T M Ns init = false ->
     from_initializer T T_default M Ns init = AssertionFailed) /\
    (matches_dimensions T M Ns init = true ->
     exists a, from_initializer T T_default M Ns init = Ok a /\
       forall idx, in_bounds M Ns idx = true ->
         exists x, initializer_at T Ns init idx = Some x /\
                   op_call T M Ns a idx = Ok x).
Proof.
  induction Ns as [|N Ns IH]; intros M init.
  - cbn [matches_dimensions from_initializer]. split; intros Hlen.
    + now rewrite Hlen.
    + rewrite Hlen. cbn [assert bind]. apply Nat.eqb_eq in Hlen.
      destruct (std_copy_spec (@Ok T) M init init 0 (default_init T T_default M []))
        as [a [Hcopy Hsub]].
      * clear. induction init; constructor; auto.
      * simpl. lia.
      * exists a; split; [exact Hcopy|]. intros idx Hin.
        cbn [in_bounds] in Hin. cbn [initializer_at op_call].
        rewrite Hsub, Hlen. cbn [Nat.leb andb Nat.add].
        rewrite Hin, Nat.sub_0_r.
        apply Nat.ltb_lt in Hin. rewrite <- Hlen in Hin.
        apply nth_error_Some in Hin.
        destruct (nth_error init idx) as [x|]; [eauto|congruence].
  - cbn [matches_dimensions from_initializer].
    (* what the conversion of each element of the literal gives *)
    assert (Hconv : Forall (fun l =>
              (exists v, from_initializer T T_default N Ns l = Ok v) \/
              from_initializer T T_default N Ns l = AssertionFailed) init).
    { apply Forall_forall. intros l _.
      destruct (IH N l) as [Hbad Hgood].
      destruct (matches_dimensions T N Ns l).
      - left. destruct Hgood as [v [Hv _]]; eauto.
      - right. now apply Hbad. }
    destruct (length init =? M) eqn:Hlen; cbn [andb assert bind].
    2:{ split; [reflexivity|discriminate]. }
    apply Nat.eqb_eq in Hlen. fold (Nested_initializer T Ns) in Hlen.
    split; intros Hall.
    + apply std_copy_assertion; [exact Hconv| |simpl; lia].
      apply Exists_exists.
      assert (Hex : existsb (fun l => negb (matches_dimensions T N Ns l)) init = true).
      { clear -Hall. induction init as [|l init IHl]; simpl in *; [discriminate|].
        destruct (matches_dimensions T N Ns l); simpl in *; auto. }
      apply existsb_exists in Hex as [l [Hl Hneg]].
      exists l. split; [exact Hl|].
      apply (proj1 (IH N l)). now apply negb_true_iff.
    + rewrite forallb_forall in Hall.
      destruct (Forall_exists_Forall2
                  (fun l v => from_initializer T T_default N Ns l = Ok v) init)
        as [vs Hvs].
      { apply Forall_forall. intros l Hl.
        destruct (proj2 (IH N l) (Hall l Hl)) as [v [Hv _]]. eauto. }
      destruct (std_copy_spec (from_initializer T T_default N Ns) M init vs 0
                              (default_init T T_default M (N :: Ns)) Hvs)
        as [a [Hcopy Hsub]]; [simpl; lia|].
      exists a; split; [exact Hcopy|]. intros idx Hin.
      apply in_bounds_cons in Hin as [Hi Hj].
      cbn [initializer_at op_call]. fold (Nested_initializer T Ns).
      match goal with
      | |- context [subscript M a ?i] =>
          change (subscript M a i) with (subscript M a (fst idx))
      end.
      rewrite (Hsub (fst idx)), Hlen. cbn [Nat.leb andb Nat.add].
      replace (fst idx <? M) with true by (symmetry; now apply Nat.ltb_lt).
      rewrite Nat.sub_0_r.
      assert (Hlt : fst idx < length vs).
      { rewrite <- (Forall2_length Hvs). lia. }
      apply nth_error_Some in Hlt.
      destruct (nth_error vs (fst idx)) as [v|] eqn:Hv; [|congruence].
      destruct (Forall2_nth_error_r Hvs _ _ Hv) as [l [Hl Hlv]].
      rewrite Hl. cbn [bind].
      destruct (proj2 (IH N l) (Hall l (nth_error_In _ _ Hl))) as [v' [Hv' Hread]].
      assert (v' = v) by congruence. subst v'.
      now apply Hread.
Qed.

End ConstructionFacts.

Lemma C8_broadcast_and_fill_witness :
  in_bounds 2 [3] (1, 2) = true /\
  (exists c, from_value nat 0 2 [3] 7 = Ok c /\ op_call nat 2 [3] c (1, 2) = Ok 7) /\
  (exists a', fill nat 0 2 [3] a23 7 = Ok a' /\ op_call nat 2 [3] a' (1, 2) = Ok 7).
Proof.
  split; [reflexivity|].
  apply (C8_broadcast_and_fill nat 0 2 [3] a23 7 (1, 2)). reflexivity.
Defined.

Lemma C6_from_initializer_checked_witness :
  matches_dimensions nat 2 [3] [[1; 2; 3]; [4; 5]] = false /\
  from_initializer nat 0 2 [3] [[1; 2; 3]; [4; 5]] = AssertionFailed /\
  matches_dimensions nat 2 [3] [[1; 2; 3]; [4; 5; 6]] = true /\
  exists a, from_initializer nat 0 2 [3] [[1; 2; 3]; [4; 5; 6]] = Ok a /\
    forall idx, in_bounds 2 [3] idx = true ->
      exists x, initializer_at nat [3] [[1; 2; 3]; [4; 5; 6]] idx = Some x /\
                op_call nat 2 [3] a idx = Ok x.
Proof.
  split; [reflexivity|]. split.
  - apply (proj1 (C6_from_initializer_checked nat 0 [3] 2 [[1; 2; 3]; [4; 5]])).
    reflexivity.
  - split; [reflexivity|].
    apply (proj2 (C6_from_initializer_checked nat 0 [3] 2 [[1; 2; 3]; [4; 5; 6]])).
    reflexivity.
Defined.

(** ** Comparison *)

Section ComparisonFacts.

Context {A : Type}.
Variable ne : A -> A -> outcome bool.
Hypothesis ne_total : forall x y, exists d, ne x y = Ok d.

(** The loop of [operator==], started at slot [i] with [todo] slots left:
    it returns, and it returns [true] exactly when no pair of slots in the
    range differs. *)
Lemma eq_loop_spec (M : nat) (lhs rhs : c_array A M) :
  forall todo i, i + todo <= M ->
    exists e, eq_loop ne M lhs rhs todo i = Ok e /\
      (e = true <->
       forall k, i <= k < i + todo ->
         exists x y, subscript M lhs k = Ok x /\ subscript M rhs k = Ok y /\
                     ne x y = Ok false).
Proof.
  induction todo as [|todo IH]; intros i Hle.
  - exists true. split; [reflexivity|]. split; [intros _ k Hk; lia|reflexivity].
  - cbn [eq_loop].
    destruct (subscript_in_range M lhs i) as [x Hx]; [lia|].
    destruct (subscript_in_range M rhs i) as [y Hy]; [lia|].
    rewrite Hx, Hy. cbn [bind].
    destruct (ne_total x y) as [d Hd]. rewrite Hd. cbn [bind].
    destruct d.
    + exists false. split; [reflexivity|]. split; [discriminate|].
      intros Hall. destruct (Hall i) as [x' [y' [Hx' [Hy' Hne]]]]; [lia|].
      congruence.
    + destruct (IH (S i)) as [e [He Hiff]]; [lia|].
      exists e. split; [exact He|]. rewrite Hiff. split; intros Hall k Hk.
      * destruct (Nat.eq_dec k i) as [->|Hki]; [eauto 6|].
        apply Hall. lia.
      * apply Hall. lia.
Qed.

End ComparisonFacts.

Section EqualityFacts.

(** The element type with its [==] and [!=], which are assumed to be
    each other's negation. *)
Variable T : Type.
Variables eq_T ne_T : T -> T -> bool.
Hypothesis ne_T_negates_eq_T : forall x y, ne_T x y = negb (eq_T x y).

Lemma op_eq_total (Ns : list nat) :
  forall (M : nat) (a b : multi_array T M Ns),
    exists e, op_eq T ne_T M Ns a b = Ok e.
Proof.
  induction Ns as [|N Ns IH]; intros M a b; cbn [op_eq].
  - destruct (eq_loop_spec (fun x y => Ok (ne_T x y))
                ltac:(intros; eauto) M a b M 0) as [e [He _]]; [lia|eauto].
  - destruct (eq_loop_spec (fun x y => e <- op_eq T ne_T N Ns x y ;; Ok (negb e))
                ltac:(intros x y; destruct (IH N x y) as [e He];
                      rewrite He; cbn [bind]; eauto)
                M a b M 0) as [e [He _]]; [lia|eauto].
Qed.

(** One level of [operator==]: equal exactly when equal slot by slot. *)
Lemma op_eq_slots (M : nat) (Ns : list nat) (a b : multi_array T M Ns) :
  op_eq T ne_T M Ns a b = Ok true <->
  forall i, i < M ->
    exists x y, op_index T M Ns a i = Ok x /\ op_index T M Ns b i = Ok y /\
                slot_eq T eq_T ne_T Ns x y = Ok true.
Proof.
  unfold op_index. destruct Ns as [|N Ns]; cbn [op_eq slot_eq].
  - destruct (eq_loop_spec (fun x y => Ok (ne_T x y))
                ltac:(intros; eauto) M a b M 0) as [e [He Hiff]]; [lia|].
    rewrite He. split.
    + intros Hok i Hi. injection Hok as ->.
      destruct (proj1 Hiff eq_refl i) as [x [y [Hx [Hy Hne]]]]; [lia|].
      exists x, y. repeat split; trivial.
      injection Hne as Hne. rewrite ne_T_negates_eq_T in Hne.
      apply negb_false_iff in Hne. now rewrite Hne.
    + intros Hall. f_equal. apply Hiff. intros k Hk.
      destruct (Hall k) as [x [y [Hx [Hy Heq]]]]; [lia|].
      exists x, y. repeat split; trivial.
      injection Heq as Heq. now rewrite ne_T_negates_eq_T, Heq.
  - destruct (eq_loop_spec (fun x y => e <- op_eq T ne_T N Ns x y ;; Ok (negb e))
                ltac:(intros x y; destruct (op_eq_total Ns N x y) as [e He];
                      rewrite He; cbn [bind]; eauto)
                M a b M 0) as [e [He Hiff]]; [lia|].
    rewrite He. split.
    + intros Hok i Hi. injection Hok as ->.
      destruct (proj1 Hiff eq_refl i) as [x [y [Hx [Hy Hne]]]]; [lia|].
      exists x, y. repeat split; trivial.
      destruct (op_eq_total Ns N x y) as [e He']. rewrite He' in Hne |- *.
      cbn [bind] in Hne. injection Hne as Hne.
      apply negb_false_iff in Hne. now rewrite Hne.
    + intros Hall. f_equal. apply Hiff. intros k Hk.
      destruct (Hall k) as [x [y [Hx [Hy Heq]]]]; [lia|].
      exists x, y. repeat split; trivial.
      now rewrite Heq.
Qed.

(** All the way down: equal exactly when [==] of [T] holds at every
    coordinate. *)
Lemma op_eq_elements (Ns : list nat) :
  forall (M : nat) (a b : multi_array T M Ns),
    op_eq T ne_T M Ns a b = Ok true <->
    forall idx, in_bounds M Ns idx = true ->
      exists x y, op_call T M Ns a idx = Ok x /\ op_call T M Ns b idx = Ok y /\
                  eq_T x y = true.
Proof.
  induction Ns as [|N Ns IH]; intros M a b; rewrite op_eq_slots; unfold op_index.
  - cbn [slot_eq in_bounds op_call]. split; intros Hall i Hi.
    + apply Nat.ltb_lt in Hi. destruct (Hall i Hi) as [x [y [Hx [Hy Heq]]]].
      exists x, y. repeat split; trivial. congruence.
    + apply Nat.ltb_lt in Hi. destruct (Hall i Hi) as [x [y [Hx [Hy Heq]]]].
      exists x, y. repeat split; trivial. now rewrite Heq.
  - cbn [slot_eq]. split.
    + intros Hall idx Hin. apply in_bounds_cons in Hin as [Hi Hj].
      destruct (Hall (fst idx) Hi) as [x [y [Hx [Hy Heq]]]].
      rewrite (op_call_cons T M N Ns a idx x Hx), (op_call_cons T M N Ns b idx y Hy).
      now apply (proj1 (IH N x y) Heq).
    + intros Hall i Hi.
      destruct (subscript_in_range M a i Hi) as [x Hx].
      destruct (subscript_in_range M b i Hi) as [y Hy].
      exists x, y. repeat split; trivial.
      apply IH. intros j Hj.
      pose proof (op_call_cons T M N Ns a (i, j) x Hx) as Ea.
      pose proof (op_call_cons T M N Ns b (i, j) y Hy) as Eb.
      cbn [snd] in Ea, Eb. rewrite <- Ea, <- Eb.
      apply Hall. apply in_bounds_cons. now split.
Qed.

(** C5, amended: for an element type whose [!=] is the negation of its
    [==], [a == b] returns, and it returns true exactly when, for every
    outermost index, the slots [a[i]] and [b[i]] are equal (by
    [operator==] of the sub-arrays, by [==] of [T] at rank 1), hence
    exactly when [==] of [T] holds at every coordinate; [a != b] returns
    the negation of [a == b]. *)
Theorem C5_equality (M : nat) (Ns : list nat) (a b : multi_array T M Ns) :
  (exists e, op_eq T ne_T M Ns a b = Ok e /\
             op_ne T ne_T M Ns a b = Ok (negb e)) /\
  (op_eq T ne_T M Ns a b = Ok true <->
   forall i, i < M ->
     exists x y, op_index T M Ns a i = Ok x /\ op_index T M Ns b i = Ok y /\
                 slot_eq T eq_T ne_T Ns x y = Ok true) /\
  (op_eq T ne_T M Ns a b = Ok true <->
   forall idx, in_bounds M Ns idx = true ->
     exists x y, op_call T M Ns a idx = Ok x /\ op_call T M Ns b idx = Ok y /\
                 eq_T x y = true).
Proof.
  split; [|split].
  - destruct (op_eq_total Ns M a b) as [e He]. exists e.
    split; [exact He|]. unfold op_ne. now rewrite He.
  - apply op_eq_slots.
  - apply op_eq_elements.
Qed.

End EqualityFacts.

Lemma C5_equality_witness :
  (forall x y, negb (Nat.eqb x y) = negb (Nat.eqb x y)) /\
  (exists e, op_eq nat (fun x y => negb (Nat.eqb x y)) 2 [3] a23 a23 = Ok e /\
             op_ne nat (fun x y => negb (Nat.eqb x y)) 2 [3] a23 a23 = Ok (negb e)) /\
  (op_eq nat (fun x y => negb (Nat.eqb x y)) 2 [3] a23 a23 = Ok true <->
   forall i, i < 2 ->
     exists x y, op_index nat 2 [3] a23 i = Ok x /\ op_index nat 2 [3] a23 i = Ok y /\
                 slot_eq nat Nat.eqb (fun x y => negb (Nat.eqb x y)) [3] x y = Ok true) /\
  (op_eq nat (fun x y => negb (Nat.eqb x y)) 2 [3] a23 a23 = Ok true <->
   forall idx, in_bounds 2 [3] idx = true ->
     exists x y, op_call nat 2 [3] a23 idx = Ok x /\ op_call nat 2 [3] a23 idx = Ok y /\
                 Nat.eqb x y = true).
Proof.
  split; [reflexivity|].
  exact (C5_equality nat Nat.eqb (fun x y => negb (Nat.eqb x y))
                     (fun x y => eq_refl) 2 [3] a23 a23).
Defined.

(** C5, as stated for every element type, fails: [operator==] consults
    only [!=] of [T].  For an element type whose [==] and [!=] both return
    true, the rank-1 array [{1, 2}] has every slot equal to itself under
    [==] of [T], and yet [a == a] returns false. *)
Lemma C5_equality_counterexample :
  op_eq nat always_true 2 [] a2 a2 = Ok false /\
  ~ (op_eq nat always_true 2 [] a2 a2 = Ok true <->
     forall i, i < 2 ->
       exists x y, op_index nat 2 [] a2 i = Ok x /\ op_index nat 2 [] a2 i = Ok y /\
                   slot_eq nat always_true always_true [] x y = Ok true).
Proof.
  split; [reflexivity|].
  intros [_ Himp].
  assert (H : op_eq nat always_true 2 [] a2 a2 = Ok true).
  { apply Himp. intros i Hi.
    destruct i as [|[|i]]; [exists 1, 1|exists 2, 2|lia]; repeat split. }
  discriminate H.
Qed.

(** ** Iteration *)

Lemma skipn_nth_error {A : Type} (l : list A) (p : nat) (x : A) :
  nth_error l p = Some x -> skipn p l = x :: skipn (S p) l.
Proof.
  revert p; induction l as [|y l IH]; intros [|p] H; simpl in *; try discriminate.
  - now injection H as ->.
  - now apply IH.
Qed.

Lemma firstn_nth_error {A : Type} (l : list A) (p : nat) (x : A) :
  nth_error l p = Some x -> firstn (S p) l = firstn p l ++ [x].
Proof.
  revert p; induction l as [|y l IH]; intros [|p] H; simpl in *; try discriminate.
  - now injection H as ->.
  - f_equal. now apply IH.
Qed.

Section IterationFacts.

Context {A : Type}.
Variable n : nat.
Variable a : c_array A n.

Lemma deref_pointer (p : nat) :
  p < n -> exists x, nth_error (to_list n a) p = Some x /\ subscript n a p = Ok x.
Proof.
  intros Hp. rewrite subscript_nth_error.
  rewrite <- (to_list_length n a) in Hp. apply nth_error_Some in Hp.
  destruct (nth_error (to_list n a) p) as [x|]; [eauto|congruence].
Qed.

(** A pointer that is [k] slots before the end reaches the end in [k]
    steps, visiting the slots from its own to the last. *)
Lemma traverse_forward :
  forall k p fuel, p + k = n -> k <= fuel ->
    traverse fuel n a (Pointer p) (Pointer n) = Some (Ok (skipn p (to_list n a))).
Proof.
  induction k as [|k IH]; intros p fuel Hp Hfuel.
  - assert (p = n) by lia; subst p.
    rewrite skipn_all2 by (rewrite to_list_length; lia).
    destruct fuel; simpl; now rewrite Nat.eqb_refl.
  - destruct fuel as [|fuel]; [lia|]. cbn [traverse iter_neq and_then].
    replace (p =? n) with false by (symmetry; apply Nat.eqb_neq; lia).
    cbn [negb deref incr].
    destruct (deref_pointer p) as [x [Hnth Hx]]; [lia|].
    rewrite Hx. cbn [and_then].
    rewrite (IH (S p) fuel) by lia.
    now rewrite (skipn_nth_error _ _ _ Hnth).
Qed.

(** A reverse iterator whose underlying pointer is [c] reaches the one
    over the start of the array in [c] steps, visiting the slots before
    [c] from the last to the first. *)
Lemma traverse_reverse :
  forall c fuel, c <= n -> c <= fuel ->
    traverse fuel n a (Reverse c) (Reverse 0) =
    Some (Ok (rev (firstn c (to_list n a)))).
Proof.
  induction c as [|c IH]; intros fuel Hc Hfuel.
  - destruct fuel; reflexivity.
  - destruct fuel as [|fuel]; [lia|]. cbn [traverse iter_neq and_then].
    cbn [Nat.eqb negb deref incr].
    destruct (deref_pointer c) as [x [Hnth Hx]]; [lia|].
    rewrite Hx. cbn [and_then].
    rewrite (IH fuel) by lia.
    now rewrite (firstn_nth_error _ _ _ Hnth), rev_app_distr.
Qed.

End IterationFacts.

Section ContainerIteration.

Variable T : Type.

(** Forward iteration from [begin()] to [end()] terminates and visits the
    slots [a[0]], ..., [a[M-1]] in this order; it leaves the array as it
    is, so that a second pass visits the same sequence. *)
Lemma forward_iteration (M : nat) (Ns : list nat) (a : multi_array T M Ns)
    (fuel : nat) :
  M <= fuel ->
  iterate T M Ns begin_ end_ fuel a = Some (Ok (to_list M a)) /\
  length (to_list M a) = M /\
  forall i, i < M ->
    exists x, nth_error (to_list M a) i = Some x /\ op_index T M Ns a i = Ok x.
Proof.
  intros Hfuel. split; [|split].
  - unfold iterate, begin_, end_, return_as. cbn [type_of iterator_type_eqb and_then].
    now rewrite (traverse_forward M a M 0 fuel).
  - apply to_list_length.
  - intros i Hi. now apply deref_pointer.
Qed.

(** What the bodies of [rbegin()] and [rend()] construct,
    [reverse_iterator(end())] and [reverse_iterator(begin())], would
    iterate over the same slots in the opposite order. *)
Lemma reverse_iterators_visit_in_reverse (M : nat) (Ns : list nat)
    (a : multi_array T M Ns) (fuel : nat) :
  M <= fuel ->
  traverse fuel M a (Reverse M) (Reverse 0) = Some (Ok (rev (to_list M a))).
Proof.
  intros Hfuel. rewrite traverse_reverse by lia.
  now rewrite firstn_all2 by (rewrite to_list_length; lia).
Qed.

(** C3: the claim has [rbegin()] and [rend()] delimit a reverse pass over
    the slots.  Both functions are declared to return [iterator], a
    pointer, and return a [reverse_iterator], which does not convert to
    it: every instantiation is ill-formed, for every array, so no reverse
    pass can be written with them. *)
Theorem C3_rbegin_rend_ill_formed (M : nat) (Ns : list nat)
    (a : multi_array T M Ns) (fuel : nat) :
  rbegin M Ns = IllFormed /\
  rend M Ns = IllFormed /\
  iterate T M Ns rbegin rend fuel a = Some IllFormed.
Proof.
  repeat split.
Qed.

End ContainerIteration.

(** ** Built-in array types *)

Lemma extents_C_array_impl (Ns : list nat) :
  forall M, extents (C_array_impl M Ns) = M :: Ns.
Proof.
  induction Ns as [|N Ns IH]; intros M; simpl; [reflexivity|].
  now rewrite IH.
Qed.

Lemma extent_v_extents (t : ctype) :
  map (extent_v t) (seq 0 (rank_v t)) = extents t.
Proof.
  induction t as [|elem IH n]; [reflexivity|].
  cbn [rank_v seq extents map extent_v]. f_equal.
  rewrite <- seq_shift, map_map. exact IH.
Qed.

(** The container type deduced for [C_array<T, M, N...>] has the dimensions
    [M, N...]. *)
Lemma multi_array_for_C_array (M : nat) (Ns : list nat) :
  multi_array_for (C_array_impl M Ns) = Some (M, Ns).
Proof.
  unfold multi_array_for. now rewrite extent_v_extents, extents_C_array_impl.
Qed.

Lemma product_elements (Ns : list nat) :
  forall M, product (M :: Ns) = N.of_nat (elements M Ns).
Proof.
  induction Ns as [|N Ns IH]; intros M.
  - simpl. lia.
  - change (product (M :: N :: Ns)) with (N.of_nat M * product (N :: Ns))%N.
    rewrite IH. cbn [elements]. lia.
Qed.

(** The products computed along the nesting of an object type never wrap
    around. *)
Lemma C_array_size_impl_product (t : ctype) :
  object_type t -> C_array_size_impl t = product (extents t).
Proof.
  induction t as [|elem IH n]; intros Hobj; [reflexivity|].
  destruct Hobj as [Helem Hfits].
  cbn [C_array_size_impl]. rewrite (IH Helem).
  change (product (extents (array_of elem n)))
    with (N.of_nat n * product (extents elem))%N in Hfits |- *.
  rewrite N.mul_comm. now apply N.mod_small.
Qed.

(** C10: for an array type (an object type: its size is representable)
    [array_size] is the product of all the extents, the number of scalars;
    for a type without extents it is the empty product, 1. *)
Theorem C10_array_size_is_product_of_extents (t : ctype) :
  object_type t ->
  array_size t = product (extents t) /\ array_size scalar = 1%N.
Proof.
  intros Hobj. split; [|reflexivity].
  now apply C_array_size_impl_product.
Qed.

Lemma C10_array_size_is_product_of_extents_witness :
  object_type (C_array_impl 2 [3; 4]) /\
  array_size (C_array_impl 2 [3; 4]) = 24%N /\ array_size scalar = 1%N.
Proof.
  assert (H : object_type (C_array_impl 2 [3; 4])).
  { simpl. unfold size_t_modulus. repeat split; lia. }
  split; [exact H|].
  apply (C10_array_size_is_product_of_extents (C_array_impl 2 [3; 4]) H).
Defined.

(** ** Conversion from a built-in array *)

(** Splitting an address into a slot and an address within the slot. *)
Lemma address_split (s i o : nat) :
  o < s -> (i * s + o) / s = i /\ (i * s + o) mod s = o.
Proof.
  intros Ho. split.
  - rewrite Nat.div_add_l by lia. rewrite Nat.div_small by exact Ho. lia.
  - rewrite Nat.add_comm, Nat.Div0.mod_add. now apply Nat.mod_small.
Qed.

Lemma address_join (s i o p : nat) :
  o < s -> (i * s + o = p <-> i = p / s /\ o = p mod s).
Proof.
  intros Ho. split.
  - intros <-. destruct (address_split s i o Ho) as [-> ->]. now split.
  - intros [-> ->]. rewrite Nat.mul_comm. symmetry. apply Nat.div_mod_eq.
Qed.

Section ConversionFacts.

Variable T : Type.
Variable T_default : T.

Lemma offset_in_range (Ns : list nat) :
  forall (M : nat) (idx : coord Ns),
    in_bounds M Ns idx = true -> offset M Ns idx < elements M Ns.
Proof.
  induction Ns as [|N Ns IH]; intros M idx Hin.
  - now apply Nat.ltb_lt.
  - apply in_bounds_cons in Hin as [Hi Hj].
    specialize (IH N (snd idx) Hj). cbn [offset elements]. nia.
Qed.

(** Reading through [(R* )a] at the row-major address of a coordinate
    reads the element at that coordinate. *)
Lemma load_offset (Ns : list nat) :
  forall (M : nat) (a : C_array T M Ns) (idx : coord Ns),
    in_bounds M Ns idx = true ->
    load T M Ns a (offset M Ns idx) = C_array_at T M Ns a idx.
Proof.
  induction Ns as [|N Ns IH]; intros M a idx Hin; [reflexivity|].
  apply in_bounds_cons in Hin as [Hi Hj].
  pose proof (offset_in_range Ns N (snd idx) Hj) as Ho.
  cbn [load offset C_array_at].
  destruct (address_split (elements N Ns) (fst idx) (offset N Ns (snd idx)) Ho)
    as [-> ->].
  read_slot Hi s Hs. now apply IH.
Qed.

Lemma C_array_at_in_bounds (Ns : list nat) :
  forall (M : nat) (a : C_array T M Ns) (idx : coord Ns),
    in_bounds M Ns idx = true -> exists x, C_array_at T M Ns a idx = Ok x.
Proof.
  induction Ns as [|N Ns IH]; intros M a idx Hin.
  - apply subscript_in_range. now apply Nat.ltb_lt.
  - apply in_bounds_cons in Hin as [Hi Hj]. cbn [C_array_at].
    read_slot Hi s Hs. now apply IH.
Qed.

(** Writing through a scalar pointer that points into the array succeeds
    and changes the element whose row-major address it holds, and no
    other. *)
Lemma store_spec (Ns : list nat) :
  forall (M : nat) (r : multi_array T M Ns) (p : nat) (v : T),
    p < elements M Ns ->
    exists r', store T M Ns r p v = Ok r' /\
      forall idx, in_bounds M Ns idx = true ->
        op_call T M Ns r' idx =
        if offset M Ns idx =? p then Ok v else op_call T M Ns r idx.
Proof.
  induction Ns as [|N Ns IH]; intros M r p v Hp.
  - destruct (assign_in_range M r p v Hp) as [r' Hr'].
    exists r'; split; [exact Hr'|]. intros idx _.
    apply (subscript_assign _ _ _ _ idx _ Hr').
  - cbn [elements] in Hp. set (s := elements N Ns) in *.
    assert (Hs : 0 < s) by nia.
    assert (Hq : p / s < M) by (apply Nat.Div0.div_lt_upper_bound; nia).
    assert (Hm : p mod s < s) by (apply Nat.mod_upper_bound; lia).
    destruct (subscript_in_range M r (p / s) Hq) as [sub Hsub].
    destruct (IH N sub (p mod s) v Hm) as [sub' [Hstore Hread]].
    destruct (assign_in_range M r (p / s) sub' Hq) as [r' Hr'].
    exists r'. split.
    + cbn [store]. fold s. rewrite_slot Hsub.
      rewrite Hstore. cbn [bind]. exact Hr'.
    + intros idx Hin. apply in_bounds_cons in Hin as [Hi Hj].
      pose proof (offset_in_range Ns N (snd idx) Hj) as Ho. fold s in Ho.
      pose proof (address_join s (fst idx) (offset N Ns (snd idx)) p Ho) as Hjoin.
      pose proof (subscript_assign _ _ _ _ (fst idx) _ Hr') as Hslot.
      cbn [offset]. fold s.
      destruct (Nat.eq_dec (fst idx) (p / s)) as [Heq|Hne].
      * replace (fst idx =? p / s) with true in Hslot
          by (symmetry; now apply Nat.eqb_eq).
        rewrite (op_call_cons T M N Ns r' idx sub' Hslot).
        rewrite <- Heq in Hsub.
        rewrite (op_call_cons T M N Ns r idx sub Hsub).
        rewrite (Hread (snd idx) Hj).
        destruct (offset N Ns (snd idx) =? p mod s) eqn:E1,
                 (fst idx * s + offset N Ns (snd idx) =? p) eqn:E2;
          try reflexivity.
        -- apply Nat.eqb_eq in E1. apply Nat.eqb_neq in E2.
           exfalso. apply E2. apply Hjoin. now split.
        -- apply Nat.eqb_neq in E1. apply Nat.eqb_eq in E2.
           exfalso. apply E1. now apply Hjoin.
      * apply Nat.eqb_neq in Hne as Hb. rewrite Hb in Hslot.
        replace (fst idx * s + offset N Ns (snd idx) =? p) with false.
        2:{ symmetry. apply Nat.eqb_neq. intros E. apply Hjoin in E. tauto. }
        destruct (subscript_in_range M r (fst idx) Hi) as [t Ht].
        rewrite Ht in Hslot.
        now rewrite (op_call_cons T M N Ns r' idx t Hslot),
                    (op_call_cons T M N Ns r idx t Ht).
Qed.

(** Every address below the number of elements is the row-major address
    of a coordinate within the dimensions. *)
Lemma offset_surjective (Ns : list nat) :
  forall (M : nat) (p : nat),
    p < elements M Ns ->
    exists idx, in_bounds M Ns idx = true /\ offset M Ns idx = p.
Proof.
  induction Ns as [|N Ns IH]; intros M p Hp.
  - exists p. split; [now apply Nat.ltb_lt|reflexivity].
  - cbn [elements] in Hp. set (s := elements N Ns) in *.
    assert (Hs : 0 < s) by nia.
    assert (Hq : p / s < M) by (apply Nat.Div0.div_lt_upper_bound; nia).
    assert (Hm : p mod s < s) by (apply Nat.mod_upper_bound; lia).
    destruct (IH N (p mod s) Hm) as [j [Hj Hoff]].
    exists (p / s, j). split.
    + apply in_bounds_cons. now split.
    + cbn [offset fst snd]. fold s. rewrite Hoff.
      rewrite Nat.mul_comm. symmetry. apply Nat.div_mod_eq.
Qed.

(** The copy loop, from address [first] on in both objects: it succeeds
    while it stays within the arrays, the elements at the addresses it
    covers are those of the source and the others are untouched. *)
Lemma std_copy_n_spec (M : nat) (Ns : list nat) (a : C_array T M Ns) :
  forall (count first : nat) (r : multi_array T M Ns),
    first + count <= elements M Ns ->
    exists r', std_copy_n (load T M Ns a) (store T M Ns) first count first r = Ok r' /\
      forall idx, in_bounds M Ns idx = true ->
        op_call T M Ns r' idx =
        if (first <=? offset M Ns idx) && (offset M Ns idx <? first + count)
        then C_array_at T M Ns a idx
        else op_call T M Ns r idx.
Proof.
  induction count as [|count IH]; intros first r Hle.
  - exists r; split; [reflexivity|]. intros idx _.
    destruct (first <=? offset M Ns idx) eqn:E1,
             (offset M Ns idx <? first + 0) eqn:E2; try reflexivity.
    apply Nat.leb_le in E1. apply Nat.ltb_lt in E2. lia.
  - cbn [std_copy_n].
    destruct (offset_surjective Ns M first) as [src [Hsrc Hoff]]; [lia|].
    destruct (C_array_at_in_bounds Ns M a src Hsrc) as [v Hv].
    assert (Hload : load T M Ns a first = Ok v).
    { rewrite <- Hoff, <- Hv. now apply load_offset. }
    rewrite Hload. cbn [bind].
    destruct (store_spec Ns M r first v) as [r1 [Hstore Hread1]]; [lia|].
    rewrite Hstore. cbn [bind].
    destruct (IH (S first) r1) as [r' [Hcopy Hread]]; [lia|].
    exists r'; split; [exact Hcopy|]. intros idx Hin.
    rewrite (Hread idx Hin), (Hread1 idx Hin).
    destruct (Nat.eq_dec (offset M Ns idx) first) as [Heq|Hne].
    + rewrite Heq, Nat.eqb_refl.
      replace (S first <=? first) with false by (symmetry; apply Nat.leb_gt; lia).
      replace (first <=? first) with true by (symmetry; apply Nat.leb_le; lia).
      replace (first <? first + S count) with true
        by (symmetry; apply Nat.ltb_lt; lia).
      cbn [andb]. rewrite <- (load_offset Ns M a idx Hin), Heq. now symmetry.
    + apply Nat.eqb_neq in Hne as Hb. rewrite Hb.
      destruct (S first <=? offset M Ns idx) eqn:E1,
               (offset M Ns idx <? S first + count) eqn:E2,
               (first <=? offset M Ns idx) eqn:E3,
               (offset M Ns idx <? first + S count) eqn:E4;
        simpl; try reflexivity;
        reflect_comparisons; lia.
Qed.

(** C7: for a built-in array [a] of type [C_array<T, M, N...>] (an object
    type), the container type deduced for it has the dimensions
    [M, N...], [to_multi_array(a)] returns, and at every coordinate the
    container holds the element [a] has at that coordinate. *)
Theorem C7_to_multi_array_elementwise (M : nat) (Ns : list nat)
    (a : C_array T M Ns) :
  object_type (C_array_impl M Ns) ->
  multi_array_for (C_array_impl M Ns) = Some (M, Ns) /\
  exists r, to_multi_array T T_default M Ns a = Ok r /\
    forall idx, in_bounds M Ns idx = true ->
      exists x, C_array_at T M Ns a idx = Ok x /\ op_call T M Ns r idx = Ok x.
Proof.
  intros Hobj. split; [apply multi_array_for_C_array|].
  unfold to_multi_array.
  unfold array_size. rewrite (C_array_size_impl_product _ Hobj).
  rewrite extents_C_array_impl, product_elements, Nat2N.id.
  rewrite data_spec. cbn [address].
  destruct (std_copy_n_spec M Ns a (elements M Ns) 0 (default_init T T_default M Ns))
    as [r [Hcopy Hread]]; [lia|].
  exists r; split; [exact Hcopy|]. intros idx Hin.
  destruct (C_array_at_in_bounds Ns M a idx Hin) as [x Hx].
  exists x; split; [exact Hx|].
  rewrite (Hread idx Hin).
  pose proof (offset_in_range Ns M idx Hin) as Ho.
  replace (offset M Ns idx <? 0 + elements M Ns) with true
    by (symmetry; apply Nat.ltb_lt; lia).
  exact Hx.
Qed.

End ConversionFacts.

Lemma C7_to_multi_array_elementwise_witness :
  object_type (C_array_impl 2 [2]) /\
  multi_array_for (C_array_impl 2 [2]) = Some (2, [2]) /\
  exists r, to_multi_array nat 0 2 [2] c22 = Ok r /\
    forall idx, in_bounds 2 [2] idx = true ->
      exists x, C_array_at nat 2 [2] c22 idx = Ok x /\ op_call nat 2 [2] r idx = Ok x.
Proof.
  assert (H : object_type (C_array_impl 2 [2])).
  { simpl. unfold size_t_modulus. repeat split; lia. }
  split; [exact H|].
  apply (C7_to_multi_array_elementwise nat 0 2 [2] c22 H).
Defined.

(** The scenario of the conversion: [int[2][2] = {{1,2},{3,4}}] gives a
    container whose coordinate (1,0) is 3. *)
Example to_multi_array_c22 :
  (r <- to_multi_array nat 0 2 [2] c22 ;; op_call nat 2 [2] r (1, 0)) = Ok 3.
Proof. reflexivity. Qed.

(** The scenario of the construction: [{{1,2,3},{4,5,6}}] as a 2x3 array. *)
Example from_initializer_a23 :
  from_initializer nat 0 2 [3] [[1; 2; 3]; [4; 5; 6]] = Ok a23 /\
  order 2 [3] = 2 /\ size 2 [3] = 2 /\
  op_call nat 2 [3] a23 (1, 2) = Ok 6 /\ op_call nat 2 [3] a23 (0, 0) = Ok 1 /\
  iterate nat 2 [3] begin_ end_ 2 a23 = Some (Ok [(1, (2, (3, tt))); (4, (5, (6, tt)))]).
Proof. repeat split. Qed.

(** * Further properties of the container *)

(** ** Arrays are determined by their slots *)

Lemma c_array_ext {A : Type} (n : nat) (a b : c_array A n) :
  (forall i, i < n -> subscript n a i = subscript n b i) -> a = b.
Proof.
  induction n as [|n IH]; intros H.
  - now destruct a, b.
  - destruct a as [x a], b as [y b].
    pose proof (H 0 ltac:(lia)) as H0. simpl in H0. injection H0 as ->.
    f_equal. apply IH. intros i Hi. apply (H (S i)). lia.
Qed.

Lemma to_list_ext {A : Type} (n : nat) (a b : c_array A n) :
  to_list n a = to_list n b -> a = b.
Proof.
  intros H. apply c_array_ext. intros i _.
  now rewrite !subscript_nth_error, H.
Qed.

Section AccessEdges.

Variable T : Type.

(** Two arrays that hold the same element at every coordinate are the
    same array. *)
Lemma multi_array_ext (Ns : list nat) :
  forall (M : nat) (a b : multi_array T M Ns),
    (forall idx, in_bounds M Ns idx = true ->
       op_call T M Ns a idx = op_call T M Ns b idx) ->
    a = b.
Proof.
  induction Ns as [|N Ns IH]; intros M a b H; apply c_array_ext; intros i Hi.
  - apply (H i). now apply Nat.ltb_lt.
  - destruct (subscript_in_range M a i Hi) as [x Hx].
    destruct (subscript_in_range M b i Hi) as [y Hy].
    rewrite Hx, Hy. f_equal. apply IH. intros j Hj.
    pose proof (op_call_cons T M N Ns a (i, j) x Hx) as Ea.
    pose proof (op_call_cons T M N Ns b (i, j) y Hy) as Eb.
    cbn [snd] in Ea, Eb. rewrite <- Ea, <- Eb.
    apply H. apply in_bounds_cons. now split.
Qed.

Lemma op_call_out_of_bounds (Ns : list nat) :
  forall (M : nat) (a : multi_array T M Ns) (idx : coord Ns),
    in_bounds M Ns idx = false -> op_call T M Ns a idx = Undefined.
Proof.
  induction Ns as [|N Ns IH]; intros M a idx Hout.
  - apply subscript_out_of_range. now apply Nat.ltb_ge.
  - cbn [in_bounds] in Hout. cbn [op_call].
    destruct (fst idx <? M) eqn:Hb.
    + apply Nat.ltb_lt in Hb. read_slot Hb s Hs. now apply IH.
    + apply Nat.ltb_ge in Hb.
      match goal with
      | |- context [@subscript ?A ?n ?x ?i] =>
          rewrite (@subscript_out_of_range A n x i Hb)
      end.
      reflexivity.
Qed.

(** X1: at a coordinate that is within the dimensions at every level, [at]
    passes its assertion and returns the element that [operator()]
    returns, at every rank. *)
Theorem X1_at_agrees_with_op_call_in_bounds (M : nat) (Ns : list nat)
    (a : multi_array T M Ns) (idx : coord Ns) :
  in_bounds M Ns idx = true ->
  exists x, at_ T M Ns a idx = Ok x /\ op_call T M Ns a idx = Ok x.
Proof.
  intros Hin. destruct (op_call_in_bounds T Ns M a idx Hin) as [x Hx].
  exists x. split; [|exact Hx]. rewrite <- Hx.
  destruct Ns as [|N Ns].
  - cbn [in_bounds] in Hin. cbn [at_ op_call]. now rewrite Hin.
  - apply in_bounds_cons in Hin as [Hi _]. now apply at_delegates_to_op_call.
Qed.

(** X2: at every rank, [at] with a first index that is out of range fails
    its assertion, whatever the other indices are; it does not reach the
    subscript. *)
Theorem X2_at_first_index_out_of_range (M : nat) (Ns : list nat)
    (a : multi_array T M Ns) (idx : coord Ns) :
  M <= first_index Ns idx ->
  at_ T M Ns a idx = AssertionFailed /\ op_call T M Ns a idx = Undefined.
Proof.
  intros H. split.
  - destruct Ns as [|N Ns]; cbn [first_index] in H; cbn [at_];
      apply Nat.ltb_ge in H; now rewrite H.
  - apply op_call_out_of_bounds.
    destruct Ns as [|N Ns]; cbn [first_index] in H; cbn [in_bounds];
      apply Nat.ltb_ge in H; now rewrite H.
Qed.

(** X3: [operator()] checks nothing.  It returns an element exactly at the
    coordinates within the dimensions; at any other coordinate its
    behaviour is undefined, and it never fails an assertion. *)
Theorem X3_op_call_defined_iff_in_bounds (M : nat) (Ns : list nat)
    (a : multi_array T M Ns) (idx : coord Ns) :
  ((exists x, op_call T M Ns a idx = Ok x) <-> in_bounds M Ns idx = true) /\
  (op_call T M Ns a idx = Undefined <-> in_bounds M Ns idx = false) /\
  op_call T M Ns a idx <> AssertionFailed.
Proof.
  destruct (in_bounds M Ns idx) eqn:Hin.
  - destruct (op_call_in_bounds T Ns M a idx Hin) as [x Hx]. rewrite Hx.
    repeat split; eauto; discriminate.
  - rewrite (op_call_out_of_bounds Ns M a idx Hin).
    repeat split; try discriminate; auto.
    intros [x Hx]. discriminate.
Qed.

(** X4: [get] with one index per dimension is checked at compile time and
    only there: it is rejected exactly when some index is out of range,
    and an instantiation that compiles returns an element; it never fails
    an assertion and never has undefined behaviour. *)
Theorem X4_get_ill_formed_iff_out_of_bounds (M : nat) (Ns : list nat)
    (a : multi_array T M Ns) (idx : coord Ns) :
  (get T M Ns idx a = IllFormed <-> in_bounds M Ns idx = false) /\
  ((exists x, get T M Ns idx a = Ok x) <-> in_bounds M Ns idx = true) /\
  get T M Ns idx a <> Undefined /\
  get T M Ns idx a <> AssertionFailed.
Proof.
  assert (Hout : forall Ns M (a : multi_array T M Ns) idx,
             in_bounds M Ns idx = false -> get T M Ns idx a = IllFormed).
  { clear. induction Ns as [|N Ns IH]; intros M a idx Hout.
    - simpl in *. now rewrite Hout.
    - cbn [get in_bounds] in *. unfold op_index.
      destruct (fst idx <? M) eqn:Hb; [|reflexivity].
      cbn [static_assert bind]. simpl in Hout.
      apply Nat.ltb_lt in Hb. read_slot Hb s Hs. now apply IH. }
  assert (Hin : forall Ns M (a : multi_array T M Ns) idx,
             in_bounds M Ns idx = true -> exists x, get T M Ns idx a = Ok x).
  { clear. induction Ns as [|N Ns IH]; intros M a idx Hin.
    - simpl in *. rewrite Hin. simpl. unfold op_index.
      apply subscript_in_range. now apply Nat.ltb_lt.
    - apply in_bounds_cons in Hin as [Hi Hj]. cbn [get]. unfold op_index.
      apply Nat.ltb_lt in Hi as Hb. rewrite Hb. cbn [static_assert bind].
      read_slot Hi s Hs. now apply IH. }
  destruct (in_bounds M Ns idx) eqn:E.
  - destruct (Hin Ns M a idx E) as [x Hx]. rewrite Hx.
    repeat split; eauto; discriminate.
  - rewrite (Hout Ns M a idx E).
    repeat split; try discriminate; auto.
    intros [x Hx]. discriminate.
Qed.

(** X5: forward iteration from [begin()] to [end()] terminates after
    [size()] steps and visits the slots [a[0]], ..., [a[M-1]] in this
    order; over an array for which [empty()] holds it visits nothing. *)
Theorem X5_forward_iteration_visits_slots (M : nat) (Ns : list nat)
    (a : multi_array T M Ns) (fuel : nat) :
  M <= fuel ->
  exists visited,
    iterate T M Ns begin_ end_ fuel a = Some (Ok visited) /\
    length visited = size M Ns /\
    (forall i, i < M ->
       exists x, nth_error visited i = Some x /\ op_index T M Ns a i = Ok x) /\
    (empty M Ns = true <-> visited = []).
Proof.
  intros Hfuel. exists (to_list M a). repeat split.
  - unfold iterate, begin_, end_, return_as.
    cbn [type_of iterator_type_eqb and_then].
    now rewrite (traverse_forward M a M 0 fuel).
  - apply to_list_length.
  - intros i Hi. now apply deref_pointer.
  - unfold empty, size. intros H%Nat.eqb_eq. subst M. reflexivity.
  - intros H. unfold empty, size. apply Nat.eqb_eq.
    rewrite <- (to_list_length M a), H. reflexivity.
Qed.

(** X6: on an array with at least one slot, [front()] and [back()] return
    the first and the last slot that forward iteration visits, [a[0]] and
    [a[M-1]]; on an array without slots both subscript out of range. *)
Theorem X6_front_back (M : nat) (Ns : list nat) (a : multi_array T M Ns) :
  (0 < M ->
   exists x y,
     front T M Ns a = Ok x /\ back T M Ns a = Ok y /\
     nth_error (to_list M a) 0 = Some x /\
     nth_error (to_list M a) (M - 1) = Some y /\
     op_index T M Ns a 0 = Ok x /\ op_index T M Ns a (M - 1) = Ok y) /\
  (M = 0 -> front T M Ns a = Undefined /\ back T M Ns a = Undefined).
Proof.
  split.
  - intros HM.
    destruct (deref_pointer M a 0) as [x [Hnx Hx]]; [lia|].
    destruct (deref_pointer M a (M - 1)) as [y [Hny Hy]]; [lia|].
    exists x, y. unfold front, back, op_index.
    destruct M as [|M]; [lia|]. repeat split; assumption.
  - intros ->. split; reflexivity.
Qed.

End AccessEdges.

Lemma X1_at_agrees_with_op_call_in_bounds_witness :
  in_bounds 2 [3] (1, 2) = true /\
  exists x, at_ nat 2 [3] a23 (1, 2) = Ok x /\ op_call nat 2 [3] a23 (1, 2) = Ok x.
Proof.
  split; [reflexivity|].
  apply (X1_at_agrees_with_op_call_in_bounds nat 2 [3] a23 (1, 2)). reflexivity.
Defined.

Lemma X2_at_first_index_out_of_range_witness :
  2 <= first_index [3] (2, 0) /\
  at_ nat 2 [3] a23 (2, 0) = AssertionFailed /\
  op_call nat 2 [3] a23 (2, 0) = Undefined.
Proof.
  assert (H : 2 <= first_index [3] (2, 0)) by (simpl; lia).
  split; [exact H|].
  apply (X2_at_first_index_out_of_range nat 2 [3] a23 (2, 0) H).
Defined.

Lemma X5_forward_iteration_visits_slots_witness :
  2 <= 2 /\
  exists visited,
    iterate nat 2 [3] begin_ end_ 2 a23 = Some (Ok visited) /\
    length visited = size 2 [3] /\
    (forall i, i < 2 ->
       exists x, nth_error visited i = Some x /\ op_index nat 2 [3] a23 i = Ok x) /\
    (empty 2 [3] = true <-> visited = []).
Proof.
  assert (H : 2 <= 2) by lia.
  split; [exact H|].
  apply (X5_forward_iteration_visits_slots nat 2 [3] a23 2 H).
Defined.

(** ** Swapping *)

Section SwapFacts.

Context {A : Type}.
Variable swap_slot : A -> A -> outcome (A * A).
Hypothesis swap_slot_exchanges : forall x y, swap_slot x y = Ok (y, x).

(** Swapping two ranges that start at the same index: the slots of the
    range change sides, the others stay. *)
Lemma swap_ranges_spec (n : nat) :
  forall (count first : nat) (a b : c_array A n),
    first + count <= n ->
    exists a' b', swap_ranges swap_slot n a b first count first = Ok (a', b') /\
      forall j,
        subscript n a' j =
          (if (first <=? j) && (j <? first + count)
           then subscript n b j else subscript n a j) /\
        subscript n b' j =
          (if (first <=? j) && (j <? first + count)
           then subscript n a j else subscript n b j).
Proof.
  induction count as [|count IH]; intros first a b Hle.
  - exists a, b. split; [reflexivity|]. intros j.
    destruct (first <=? j) eqn:E1, (j <? first + 0) eqn:E2; simpl; auto.
    reflect_comparisons. lia.
  - cbn [swap_ranges].
    destruct (subscript_in_range n a first) as [x Hx]; [lia|].
    destruct (subscript_in_range n b first) as [y Hy]; [lia|].
    rewrite Hx, Hy. cbn [bind]. rewrite swap_slot_exchanges. cbn [bind fst snd].
    destruct (assign_in_range n a first y) as [a1 Ha1]; [lia|].
    destruct (assign_in_range n b first x) as [b1 Hb1]; [lia|].
    rewrite Ha1, Hb1. cbn [bind].
    destruct (IH (S first) a1 b1) as [a' [b' [Hswap Hsub]]]; [lia|].
    exists a', b'. split; [exact Hswap|]. intros j.
    destruct (Hsub j) as [Hja Hjb]. rewrite Hja, Hjb.
    rewrite (subscript_assign _ _ _ _ j _ Ha1), (subscript_assign _ _ _ _ j _ Hb1).
    destruct (Nat.eq_dec j first) as [->|Hne].
    + rewrite Nat.eqb_refl, Hx, Hy.
      replace (S first <=? first) with false by (symmetry; apply Nat.leb_gt; lia).
      replace (first <=? first) with true by (symmetry; apply Nat.leb_le; lia).
      replace (first <? first + S count) with true
        by (symmetry; apply Nat.ltb_lt; lia).
      split; reflexivity.
    + apply Nat.eqb_neq in Hne as Hb; rewrite Hb.
      destruct (S first <=? j) eqn:E1, (j <? S first + count) eqn:E2,
               (first <=? j) eqn:E3, (j <? first + S count) eqn:E4;
        simpl; auto; reflect_comparisons; lia.
Qed.

End SwapFacts.

Section SwapContainer.

Variable T : Type.

Lemma swap_spec (Ns : list nat) :
  forall (M : nat) (a b : multi_array T M Ns), swap T M Ns a b = Ok (b, a).
Proof.
  induction Ns as [|N Ns IH]; intros M a b; cbn [swap].
  - destruct (swap_ranges_spec (fun x y : T => Ok (y, x)) ltac:(reflexivity)
                M M 0 a b) as [a' [b' [Hswap Hsub]]]; [lia|].
    etransitivity; [exact Hswap|].
    f_equal. f_equal; apply c_array_ext; intros i Hi;
      destruct (Hsub i) as [Ha Hb]; [rewrite Ha|rewrite Hb];
      replace (i <? 0 + M) with true by (symmetry; now apply Nat.ltb_lt);
      reflexivity.
  - destruct (swap_ranges_spec (swap T N Ns) (IH N) M M 0 a b)
      as [a' [b' [Hswap Hsub]]]; [lia|].
    etransitivity; [exact Hswap|].
    f_equal. f_equal; apply c_array_ext; intros i Hi;
      destruct (Hsub i) as [Ha Hb]; [rewrite Ha|rewrite Hb];
      replace (i <? 0 + M) with true by (symmetry; now apply Nat.ltb_lt);
      reflexivity.
Qed.

(** X7: [a.swap(b)] succeeds on any two arrays of the same type and
    exchanges their contents exactly: afterwards [a] is the former [b] and
    [b] the former [a]; swapping twice restores both. *)
Theorem X7_swap_exchanges (M : nat) (Ns : list nat) (a b : multi_array T M Ns) :
  swap T M Ns a b = Ok (b, a) /\
  (ab <- swap T M Ns a b ;; swap T M Ns (fst ab) (snd ab)) = Ok (a, b).
Proof.
  split; [apply swap_spec|].
  rewrite swap_spec. cbn [bind fst snd]. apply swap_spec.
Qed.

End SwapContainer.

(** ** Equality as a relation *)

Section ComparisonDiffers.

Context {A : Type}.
Variable ne : A -> A -> outcome bool.

(** When the loop of [operator==] returns false, it has met a pair of
    slots that differ. *)
Lemma eq_loop_false (M : nat) (lhs rhs : c_array A M) :
  forall todo i,
    eq_loop ne M lhs rhs todo i = Ok false ->
    exists k x y, i <= k < i + todo /\
      subscript M lhs k = Ok x /\ subscript M rhs k = Ok y /\ ne x y = Ok true.
Proof.
  induction todo as [|todo IH]; intros i H; [discriminate|].
  cbn [eq_loop] in H.
  destruct (subscript M lhs i) as [x| | |] eqn:Hx; try discriminate.
  destruct (subscript M rhs i) as [y| | |] eqn:Hy; try discriminate.
  cbn [bind] in H.
  destruct (ne x y) as [d| | |] eqn:Hd; try discriminate.
  cbn [bind] in H. destruct d.
  - exists i, x, y. repeat split; trivial; lia.
  - destruct (IH (S i) H) as [k [x' [y' [Hk Hrest]]]].
    exists k, x', y'. split; [lia|exact Hrest].
Qed.

End ComparisonDiffers.

Section EqualityRelation.

Variable T : Type.
Variables eq_T ne_T : T -> T -> bool.
Hypothesis ne_T_negates_eq_T : forall x y, ne_T x y = negb (eq_T x y).

Lemma op_eq_false_differs (Ns : list nat) :
  forall (M : nat) (a b : multi_array T M Ns),
    op_eq T ne_T M Ns a b = Ok false ->
    exists idx x y, in_bounds M Ns idx = true /\
      op_call T M Ns a idx = Ok x /\ op_call T M Ns b idx = Ok y /\
      eq_T x y = false.
Proof.
  induction Ns as [|N Ns IH]; intros M a b H; cbn [op_eq] in H;
    apply eq_loop_false in H as [k [x [y [Hk [Hx [Hy Hne]]]]]].
  - exists k, x, y. repeat split; trivial.
    + apply Nat.ltb_lt. lia.
    + injection Hne as Hne. rewrite ne_T_negates_eq_T in Hne.
      now apply negb_true_iff in Hne.
  - destruct (op_eq T ne_T N Ns x y) as [e| | |] eqn:He; try discriminate.
    cbn [bind] in Hne. injection Hne as Hne. apply negb_true_iff in Hne. subst e.
    destruct (IH N x y He) as [j [u [w [Hj [Hu [Hw Huw]]]]]].
    exists (k, j), u, w. repeat split; trivial.
    + apply in_bounds_cons. split; [simpl; lia|exact Hj].
    + now rewrite (op_call_cons T M N Ns a (k, j) x Hx).
    + now rewrite (op_call_cons T M N Ns b (k, j) y Hy).
Qed.

(** X8: [a == b] returns false exactly when the two arrays hold, at some
    coordinate, elements that [==] of [T] tells apart; so changing a
    single element to a different one breaks equality. *)
Theorem X8_unequal_iff_some_element_differs (M : nat) (Ns : list nat)
    (a b : multi_array T M Ns) :
  op_eq T ne_T M Ns a b = Ok false <->
  exists idx x y, in_bounds M Ns idx = true /\
    op_call T M Ns a idx = Ok x /\ op_call T M Ns b idx = Ok y /\
    eq_T x y = false.
Proof.
  split; [apply op_eq_false_differs|].
  intros [idx [x [y [Hin [Hx [Hy Hxy]]]]]].
  destruct (op_eq_total T ne_T Ns M a b) as [[|] He]; [|exact He].
  exfalso.
  destruct (proj1 (op_eq_elements T eq_T ne_T ne_T_negates_eq_T Ns M a b) He idx Hin)
    as [x' [y' [Hx' [Hy' Heq]]]].
  congruence.
Qed.

(** X9: when [==] of [T] holds exactly between identical values (as for
    the built-in integer types), [a == b] is true exactly when the two
    arrays are the same value. *)
Theorem X9_equality_decides_identity (M : nat) (Ns : list nat)
    (a b : multi_array T M Ns) :
  (forall x y, eq_T x y = true <-> x = y) ->
  (op_eq T ne_T M Ns a b = Ok true <-> a = b).
Proof.
  intros Hdec.
  rewrite (op_eq_elements T eq_T ne_T ne_T_negates_eq_T Ns M a b). split.
  - intros Hall. apply multi_array_ext. intros idx Hin.
    destruct (Hall idx Hin) as [x [y [Hx [Hy Heq]]]].
    apply Hdec in Heq. congruence.
  - intros <- idx Hin.
    destruct (op_call_in_bounds T Ns M a idx Hin) as [x Hx].
    exists x, x. repeat split; trivial. now apply Hdec.
Qed.

Hypothesis eq_T_reflexive : forall x, eq_T x x = true.
Hypothesis eq_T_symmetric : forall x y, eq_T x y = eq_T y x.
Hypothesis eq_T_transitive :
  forall x y z, eq_T x y = true -> eq_T y z = true -> eq_T x z = true.

(** X10: over an element type whose [==] is an equivalence, [operator==]
    of arrays is one too: every array equals itself, [a == b] and [b == a]
    return the same, and equality passes from [a], [b] and [b], [c] to
    [a], [c]. *)
Theorem X10_equality_is_an_equivalence (M : nat) (Ns : list nat)
    (a b c : multi_array T M Ns) :
  op_eq T ne_T M Ns a a = Ok true /\
  op_eq T ne_T M Ns a b = op_eq T ne_T M Ns b a /\
  (op_eq T ne_T M Ns a b = Ok true -> op_eq T ne_T M Ns b c = Ok true ->
   op_eq T ne_T M Ns a c = Ok true).
Proof.
  pose proof (op_eq_elements T eq_T ne_T ne_T_negates_eq_T Ns M) as Helem.
  split; [|split].
  - apply Helem. intros idx Hin.
    destruct (op_call_in_bounds T Ns M a idx Hin) as [x Hx].
    exists x, x. repeat split; trivial.
  - assert (Hsym : forall u w : multi_array T M Ns,
               op_eq T ne_T M Ns u w = Ok true -> op_eq T ne_T M Ns w u = Ok true).
    { intros u w H. apply Helem. intros idx Hin.
      destruct (proj1 (Helem u w) H idx Hin) as [x [y [Hx [Hy Heq]]]].
      exists y, x. repeat split; trivial. now rewrite eq_T_symmetric. }
    destruct (op_eq_total T ne_T Ns M a b) as [[|] Hab],
             (op_eq_total T ne_T Ns M b a) as [[|] Hba]; try congruence.
    + apply Hsym in Hab. congruence.
    + apply Hsym in Hba. congruence.
  - intros Hab Hbc. apply Helem. intros idx Hin.
    destruct (proj1 (Helem a b) Hab idx Hin) as [x [y [Hx [Hy Hxy]]]].
    destruct (proj1 (Helem b c) Hbc idx Hin) as [y' [z [Hy' [Hz Hyz]]]].
    assert (y' = y) by congruence. subst y'.
    exists x, z. repeat split; trivial. now apply (eq_T_transitive x y z).
Qed.

End EqualityRelation.

(** [int] with its [==] and [!=], for the witnesses. *)
Lemma nat_ne_negates_eq (x y : nat) : negb (x =? y) = negb (x =? y).
Proof. reflexivity. Defined.

Lemma nat_eqb_trans (x y z : nat) :
  (x =? y) = true -> (y =? z) = true -> (x =? z) = true.
Proof.
  intros H1%Nat.eqb_eq H2%Nat.eqb_eq. apply Nat.eqb_eq. congruence.
Defined.

Lemma X8_unequal_iff_some_element_differs_witness :
  (forall x y, negb (x =? y) = negb (x =? y)) /\
  (op_eq nat (fun x y => negb (x =? y)) 2 [3] a23 a23 = Ok false <->
   exists idx x y, in_bounds 2 [3] idx = true /\
     op_call nat 2 [3] a23 idx = Ok x /\ op_call nat 2 [3] a23 idx = Ok y /\
     (x =? y) = false).
Proof.
  split; [exact nat_ne_negates_eq|].
  apply (X8_unequal_iff_some_element_differs nat Nat.eqb (fun x y => negb (x =? y))
           nat_ne_negates_eq 2 [3] a23 a23).
Defined.

Lemma X9_equality_decides_identity_witness :
  (forall x y, negb (x =? y) = negb (x =? y)) /\
  (forall x y, (x =? y) = true <-> x = y) /\
  (op_eq nat (fun x y => negb (x =? y)) 2 [3] a23 a23 = Ok true <-> a23 = a23).
Proof.
  split; [exact nat_ne_negates_eq|]. split; [exact Nat.eqb_eq|].
  apply (X9_equality_decides_identity nat Nat.eqb (fun x y => negb (x =? y))
           nat_ne_negates_eq 2 [3] a23 a23 Nat.eqb_eq).
Defined.

Lemma X10_equality_is_an_equivalence_witness :
  (forall x y, negb (x =? y) = negb (x =? y)) /\
  (forall x, (x =? x) = true) /\
  (forall x y, (x =? y) = (y =? x)) /\
  (forall x y z, (x =? y) = true -> (y =? z) = true -> (x =? z) = true) /\
  op_eq nat (fun x y => negb (x =? y)) 2 [3] a23 a23 = Ok true.
Proof.
  split; [exact nat_ne_negates_eq|]. split; [exact Nat.eqb_refl|].
  split; [exact Nat.eqb_sym|]. split; [exact nat_eqb_trans|].
  exact (proj1 (X10_equality_is_an_equivalence nat Nat.eqb (fun x y => negb (x =? y))
           nat_ne_negates_eq Nat.eqb_refl Nat.eqb_sym nat_eqb_trans 2 [3] a23 a23 a23)).
Defined.

(** ** Construction, again *)

Lemma nth_error_ext_length {A : Type} (l l' : list A) :
  (forall i, nth_error l i = nth_error l' i) -> l = l'.
Proof.
  revert l'; induction l as [|x l IH]; intros [|y l'] H.
  - reflexivity.
  - specialize (H 0). discriminate.
  - specialize (H 0). discriminate.
  - pose proof (H 0) as H0. simpl in H0. injection H0 as ->.
    f_equal. apply IH. intros i. apply (H (S i)).
Qed.

Lemma subscript_Ok_nth_error {A : Type} (n : nat) (a : c_array A n) (i : nat) (x : A) :
  subscript n a i = Ok x -> nth_error (to_list n a) i = Some x.
Proof.
  rewrite subscript_nth_error.
  destruct (nth_error (to_list n a) i); [now intros [= ->]|discriminate].
Qed.

Section CopyFacts.

Context {A B : Type}.
Variable conv : B -> outcome A.

(** Copying a whole list of the length of the array, from its start: the
    array then holds, in order, the converted elements. *)
Lemma std_copy_whole (n : nat) (src : list B) (vs : list A) (a : c_array A n) :
  Forall2 (fun x v => conv x = Ok v) src vs ->
  length src = n ->
  exists a', std_copy conv n src a 0 = Ok a' /\ to_list n a' = vs.
Proof.
  intros Hconv Hlen.
  destruct (std_copy_spec conv n src vs 0 a Hconv) as [a' [Hcopy Hsub]]; [lia|].
  exists a'. split; [exact Hcopy|].
  apply nth_error_ext_length. intros i.
  specialize (Hsub i). rewrite subscript_nth_error in Hsub.
  rewrite Nat.sub_0_r in Hsub. cbn [Nat.leb andb Nat.add] in Hsub.
  destruct (i <? length src) eqn:Hi.
  - destruct (nth_error (to_list n a') i), (nth_error vs i); congruence.
  - apply Nat.ltb_ge in Hi.
    assert (H1 : nth_error (to_list n a') i = None)
      by (apply nth_error_None; rewrite to_list_length; lia).
    assert (H2 : nth_error vs i = None)
      by (apply nth_error_None; rewrite <- (Forall2_length Hconv); lia).
    congruence.
Qed.

(** A copy that succeeds has converted every element. *)
Lemma std_copy_converted (n : nat) :
  forall (src : list B) (a a' : c_array A n) (d_first : nat),
    std_copy conv n src a d_first = Ok a' ->
    exists vs, Forall2 (fun x v => conv x = Ok v) src vs.
Proof.
  induction src as [|x src IH]; intros a a' d_first H.
  - exists []. constructor.
  - cbn [std_copy] in H.
    destruct (conv x) as [v| | |] eqn:Hv; try discriminate. cbn [bind] in H.
    destruct (assign n a d_first v) as [a1| | |] eqn:Ha1; try discriminate.
    cbn [bind] in H. destruct (IH a1 a' (S d_first) H) as [vs Hvs].
    exists (v :: vs). now constructor.
Qed.

End CopyFacts.

Section ConstructionRoundTrip.

Variable T : Type.
Variable T_default : T.

Lemma assert_passed {A : Type} (c : bool) (k : outcome A) (r : A) :
  (_ <- assert c ;; k) = Ok r -> c = true /\ k = Ok r.
Proof.
  destruct c; [now split|discriminate].
Qed.

(** The literal an array was constructed from lists its elements. *)
Lemma from_initializer_lists (Ns : list nat) :
  forall (M : nat) (init : Nested_initializer T Ns) (a : multi_array T M Ns),
    from_initializer T T_default M Ns init = Ok a ->
    to_initializer T Ns M a = init.
Proof.
  induction Ns as [|N Ns IH]; intros M init a H; cbn [from_initializer] in H;
    apply assert_passed in H as [Hlen H]; apply Nat.eqb_eq in Hlen;
    cbn [to_initializer].
  - destruct (std_copy_converted _ _ _ _ _ _ H) as [vs Hvs].
    destruct (std_copy_whole (@Ok T) M init vs (default_init T T_default M []) Hvs Hlen)
      as [a' [Hcopy Hlist]].
    assert (a' = a) by congruence. subst a'. transitivity vs; [exact Hlist|].
    clear -Hvs. induction Hvs as [|x v l vs Hxv _ IHl]; [reflexivity|].
    injection Hxv as ->. now f_equal.
  - destruct (std_copy_converted _ _ _ _ _ _ H) as [vs Hvs].
    destruct (std_copy_whole (from_initializer T T_default N Ns) M init vs
                (default_init T T_default M (N :: Ns)) Hvs Hlen)
      as [a' [Hcopy Hlist]].
    assert (a' = a) by (rewrite H in Hcopy; now injection Hcopy).
    subst a'.
    transitivity (map (to_initializer T Ns N) vs); [now rewrite <- Hlist|].
    clear -Hvs IH. induction Hvs as [|l v init vs Hlv _ IHl]; [reflexivity|].
    cbn [map]. f_equal; [now apply IH|exact IHl].
Qed.

(** Constructing from the literal that lists an array gives that array. *)
Lemma from_initializer_of_listing (Ns : list nat) :
  forall (M : nat) (a : multi_array T M Ns),
    from_initializer T T_default M Ns (to_initializer T Ns M a) = Ok a.
Proof.
  induction Ns as [|N Ns IH]; intros M a; cbn [from_initializer to_initializer].
  - rewrite to_list_length, Nat.eqb_refl. cbn [assert bind].
    destruct (std_copy_whole (@Ok T) M (to_list M a) (to_list M a)
                (default_init T T_default M []))
      as [a' [Hcopy Hlist]].
    + clear. induction (to_list M a); constructor; auto.
    + apply to_list_length.
    + rewrite Hcopy. f_equal. now apply to_list_ext.
  - rewrite length_map, to_list_length, Nat.eqb_refl. cbn [assert bind].
    destruct (std_copy_whole (from_initializer T T_default N Ns) M
                (map (to_initializer T Ns N) (to_list M a)) (to_list M a)
                (default_init T T_default M (N :: Ns)))
      as [a' [Hcopy Hlist]].
    + clear -IH. induction (to_list M a) as [|s l IHl]; constructor; auto.
    + now rewrite length_map, to_list_length.
    + etransitivity; [exact Hcopy|]. f_equal. now apply to_list_ext.
Qed.

Lemma from_initializer_of_its_listing (M : nat) (Ns : list nat)
    (init : Nested_initializer T Ns) (a : multi_array T M Ns) :
  to_initializer T Ns M a = init ->
  from_initializer T T_default M Ns init = Ok a.
Proof.
  intros <-. apply from_initializer_of_listing.
Qed.

(** X11: construction from a nested literal keeps every element where the
    literal has it and adds nothing: it returns the array [a] exactly when
    the literal is the one that lists the slots of [a], level by level.
    In particular every array is the result of constructing from its own
    listing, and two literals that construct the same array are equal. *)
Theorem X11_from_initializer_round_trip (M : nat) (Ns : list nat)
    (init : Nested_initializer T Ns) (a : multi_array T M Ns) :
  from_initializer T T_default M Ns init = Ok a <->
  to_initializer T Ns M a = init.
Proof.
  split.
  - apply from_initializer_lists.
  - intros <-. apply from_initializer_of_listing.
Qed.

(** X12: [fill(v)] forgets the prior state altogether: on any array it
    returns the array that broadcast construction from [v] returns, which
    does not depend on what default-initialisation left in the storage;
    filling twice is filling once. *)
Theorem X12_fill_is_from_value (M : nat) (Ns : list nat)
    (a : multi_array T M Ns) (v : T) (other_default : T) :
  fill T T_default M Ns a v = from_value T T_default M Ns v /\
  from_value T T_default M Ns v = from_value T other_default M Ns v /\
  (a' <- fill T T_default M Ns a v ;; fill T T_default M Ns a' v) =
  fill T T_default M Ns a v.
Proof.
  assert (Hsame : forall d d' (x y : multi_array T M Ns),
             fill T d M Ns x v = fill T d' M Ns y v).
  { intros d d' x y.
    destruct (fill_spec T d Ns M x v) as [x' [Hx Hrx]].
    destruct (fill_spec T d' Ns M y v) as [y' [Hy Hry]].
    rewrite Hx, Hy. f_equal. apply multi_array_ext. intros idx Hin.
    now rewrite Hrx, Hry. }
  split; [apply Hsame|]. split; [apply Hsame|].
  destruct (fill_spec T T_default Ns M a v) as [a' [Ha' _]].
  rewrite Ha'. cbn [bind]. rewrite <- Ha'. apply Hsame.
Qed.

(** X13: broadcast construction from [v] returns the array that
    construction from the literal of the declared lengths with [v]
    everywhere returns. *)
Theorem X13_from_value_is_from_initializer (Ns : list nat) :
  forall (M : nat) (v : T),
    from_initializer T T_default M Ns (initializer_of_value T M Ns v) =
    from_value T T_default M Ns v.
Proof.
  induction Ns as [|N Ns IH]; intros M v.
  - destruct (fill_spec T T_default [] M (default_init T T_default M []) v)
      as [c [Hc Hread]].
    unfold from_value. rewrite Hc.
    apply from_initializer_of_its_listing. cbn [to_initializer initializer_of_value].
    apply nth_error_ext_length. intros i.
    destruct (Nat.lt_ge_cases i M) as [Hi|Hi].
    + rewrite nth_error_repeat by exact Hi.
      apply subscript_Ok_nth_error. apply (Hread i). now apply Nat.ltb_lt.
    + transitivity (@None T).
      * apply nth_error_None. rewrite to_list_length. exact Hi.
      * symmetry. apply nth_error_None. now rewrite repeat_length.
  - unfold from_value. cbn [fill].
    destruct (fill_spec T T_default Ns N (default_init T T_default N Ns) v)
      as [tmp [Htmp _]].
    destruct (std_fill_spec (fill T T_default N Ns (default_init T T_default N Ns))
                M v tmp Htmp M 0 (default_init T T_default M (N :: Ns)))
      as [c [Hc Hsub]]; [lia|].
    etransitivity; [|symmetry; exact Hc].
    apply from_initializer_of_its_listing.
    change (map (to_initializer T Ns N) (to_list M c) =
            repeat (initializer_of_value T N Ns v) M).
    assert (Hlist : to_list M c = repeat tmp M).
    { apply nth_error_ext_length. intros i.
      destruct (Nat.lt_ge_cases i M) as [Hi|Hi].
      - rewrite nth_error_repeat by exact Hi.
        apply subscript_Ok_nth_error. rewrite (Hsub i).
        replace (i <? 0 + M) with true by (symmetry; now apply Nat.ltb_lt).
        reflexivity.
      - transitivity (@None (multi_array T N Ns)).
        + apply nth_error_None. rewrite to_list_length. exact Hi.
        + symmetry. apply nth_error_None. now rewrite repeat_length. }
    rewrite Hlist, map_repeat. f_equal.
    apply (from_initializer_lists Ns N). rewrite IH. exact Htmp.
Qed.

End ConstructionRoundTrip.

(** ** The container type deduced for a built-in array type *)

Lemma rank_v_extents (t : ctype) : rank_v t = length (extents t).
Proof.
  induction t as [|elem IH n]; simpl; [reflexivity|]. now rewrite IH.
Qed.

(** X14: [multi_array_for] gives no container type for a type that is not
    an array, and for an array type the container whose dimensions are the
    extents of the type, outermost first; its [order()] is the rank of the
    type and, for an object type, [array_size] is the number of scalars the
    container stores, so that the copy of [to_multi_array] fills the
    container and stays within it. *)
Theorem X14_multi_array_for_shape (t : ctype) :
  (multi_array_for t = None <-> t = scalar) /\
  (forall M Ns,
     multi_array_for t = Some (M, Ns) ->
     M :: Ns = extents t /\
     order M Ns = rank_v t /\
     (object_type t -> array_size t = N.of_nat (elements M Ns))).
Proof.
  unfold multi_array_for. rewrite extent_v_extents. split.
  - destruct t as [|elem n]; simpl; split; intros H;
      try reflexivity; discriminate.
  - intros M Ns H.
    destruct (extents t) as [|M' Ns'] eqn:Hext; [discriminate|].
    injection H as <- <-.
    split; [reflexivity|]. split.
    + rewrite rank_v_extents, Hext.
      destruct Ns' as [|N Ns']; simpl; [reflexivity|]. now rewrite Nat.add_1_r.
    + intros Hobj. unfold array_size.
      now rewrite (C_array_size_impl_product t Hobj), Hext, product_elements.
Qed.
